(** * acl-utils: the rule algebra of [AclRule.ts] and the rule store of
    [AclDoc.js], embedded shallowly and verified.

    Layout: the data model and every operation first (modules
    [Permissions], [Agents], [AclRule], [AclDoc]), then the lemmas. *)

From stdpp Require Import base decidable option list gmap strings pretty.
From Stdlib Require Import Ascii NArith Lia Sorted.

#[local] Set Warnings "-clear-no-such-hyp".

(** ** Permissions and agents *)

(** Modelled from the spec: [Permissions.js] is not part of the sources at
    hand.  A permission set is a set over the closed vocabulary read, write,
    append, control, with the contract of section 4.1: [equals], [isEmpty],
    [includes] (superset check), [common], [subtract] and [merge]; every
    operation returns a new set. *)
Module Permissions.

Inductive Permission := READ | WRITE | APPEND | CONTROL.

#[global] Instance Permission_eq_dec : EqDecision Permission.
Proof. solve_decision. Defined.

Definition code (p : Permission) : nat :=
  match p with READ => 0 | WRITE => 1 | APPEND => 2 | CONTROL => 3 end.

Definition decode (n : nat) : option Permission :=
  match n with
  | 0 => Some READ | 1 => Some WRITE | 2 => Some APPEND | 3 => Some CONTROL
  | _ => None
  end.

#[global] Instance Permission_countable : Countable Permission.
Proof. apply (inj_countable code decode). by intros []. Defined.

Definition t := gset Permission.

Definition ALL : t := {[ READ; WRITE; APPEND; CONTROL ]}.

Definition equals (a b : t) : bool := bool_decide (a = b).
Definition isEmpty (a : t) : bool := bool_decide (a = ∅).
Definition includes (a other : t) : bool := bool_decide (other ⊆ a).
Definition common (a b : t) : t := a ∩ b.
Definition subtract (a b : t) : t := a ∖ b.
Definition merge (a b : t) : t := a ∪ b.

End Permissions.

(** Modelled from the spec: [Agents.js] is not part of the sources at hand.
    An agent set is a set of descriptors of the five categories of section 3
    ([public] and [authenticated] are plain members, unrelated to each
    other), with the same contract as the permission sets. *)
Module Agents.

Inductive Agent :=
| Public
| Authenticated
| WebId (id : string)
| Group (id : string)
| Origin (id : string).

#[global] Instance Agent_eq_dec : EqDecision Agent.
Proof. solve_decision. Defined.

Definition code (a : Agent) : bool + (string + (string + string)) :=
  match a with
  | Public => inl true
  | Authenticated => inl false
  | WebId i => inr (inl i)
  | Group i => inr (inr (inl i))
  | Origin i => inr (inr (inr i))
  end.

Definition decode (c : bool + (string + (string + string))) : Agent :=
  match c with
  | inl true => Public
  | inl false => Authenticated
  | inr (inl i) => WebId i
  | inr (inr (inl i)) => Group i
  | inr (inr (inr i)) => Origin i
  end.

#[global] Instance Agent_countable : Countable Agent.
Proof. apply (inj_countable' code decode). by intros []. Defined.

Definition t := gset Agent.

Definition PUBLIC : t := {[ Public ]}.

Definition equals (a b : t) : bool := bool_decide (a = b).
Definition isEmpty (a : t) : bool := bool_decide (a = ∅).
Definition includes (a other : t) : bool := bool_decide (other ⊆ a).
Definition common (a b : t) : t := a ∩ b.
Definition subtract (a b : t) : t := a ∖ b.
Definition merge (a b : t) : t := a ∪ b.

End Agents.

(** ** Rules: [AclRule.ts] *)

(** The statements a rule carries without interpreting them (n3's [Quad]):
    four terms, compared by value. *)
Record Quad := mkQuad {
  subject : string;
  predicate : string;
  object : string;
  graph : string
}.

#[global] Instance Quad_eq_dec : EqDecision Quad.
Proof. solve_decision. Defined.

(** Modelled from the spec: [utils.ts] is not part of the sources at hand.
    [iterableEquals] compares two sequences element by element, in order. *)
Definition iterableEquals `{EqDecision A} (xs ys : list A) : bool :=
  bool_decide (xs = ys).

Module AclRule.

(** The fields of the class; [default] and [defaultForNew] are a string
    or [undefined]. *)
Record t := mk {
  permissions : Permissions.t;
  agents : Agents.t;
  accessTo : list string;
  otherQuads : list Quad;
  default_ : option string;
  defaultForNew : option string
}.

(** [AclRuleOptions], all three members optional. *)
Record Options := mkOptions {
  opt_otherQuads : option (list Quad);
  opt_default : option string;
  opt_defaultForNew : option string
}.

Definition noOptions : Options := mkOptions None None None.

(** [constructor]: the sets are normalised by [from], the [accessTo] array
    and the quads are copied, a missing [otherQuads] is the empty list.
    A single [accessTo] string is passed here as a one-element list. *)
Definition new (p : Permissions.t) (a : Agents.t) (acc : list string)
    (o : Options) : t :=
  mk p a acc
     (match opt_otherQuads o with Some qs => qs | None => [] end)
     (opt_default o) (opt_defaultForNew o).

Definition _getOptions (r : t) : Options :=
  mkOptions (Some (otherQuads r)) (default_ r) (defaultForNew r).

Definition clone (r : t) : t :=
  new (permissions r) (agents r) (accessTo r) (_getOptions r).

Definition equals (r other : t) : bool :=
  iterableEquals (otherQuads r) (otherQuads other) &&
  Permissions.equals (permissions r) (permissions other) &&
  Agents.equals (agents r) (agents other) &&
  bool_decide (default_ r = default_ other) &&
  bool_decide (defaultForNew r = defaultForNew other).

Definition hasNoEffect (r : t) : bool :=
  bool_decide (length (otherQuads r) = 0) &&
  (Permissions.isEmpty (permissions r) ||
   Agents.isEmpty (agents r) ||
   bool_decide (length (accessTo r) = 0)).

Definition common (first second : t) : t :=
  let permissions := Permissions.common (permissions first) (permissions second) in
  let agents := Agents.common (agents first) (agents second) in
  let accessTo :=
    filter (λ val, val ∈ accessTo second) (accessTo first) in
  let quads :=
    filter (λ quad, Exists (λ otherQuad, quad = otherQuad) (otherQuads second))
           (otherQuads first) in
  let options :=
    mkOptions (Some quads)
      (if decide (default_ first = default_ second)
       then default_ first else None)
      (if decide (defaultForNew first = defaultForNew second)
       then defaultForNew first else None) in
  new permissions agents accessTo options.

Definition subtract (first second : t) : list t :=
  let firstOptions := _getOptions first in
  (* rule for all unaffected agents *)
  let unaffectedAgents := Agents.subtract (agents first) (agents second) in
  let rule1 := new (permissions first) unaffectedAgents (accessTo first) firstOptions in
  (* rule for all unaffected permissions but affected agents *)
  let unaffectedPermissions :=
    Permissions.subtract (permissions first) (permissions second) in
  let commonAgents := Agents.common (agents first) (agents second) in
  let rule2 := new unaffectedPermissions commonAgents (accessTo first) firstOptions in
  filter (λ rule, negb (hasNoEffect rule)) [rule1; rule2].

End AclRule.

(** ** The rule store: [AclDoc.js] *)

(** *** Strings and numbers of the fresh-identifier scheme *)

(** [\d] of a JavaScript regular expression: the ten ASCII digits. *)
Definition is_digit (c : ascii) : bool :=
  let n := N_of_ascii c in (48 <=? n)%N && (n <=? 57)%N.

(** The two regular-expression calls of [_getNewSubjectId] on the pattern
    [/[\d]*$/]: the match is the longest run of digits that ends the string
    (the leftmost position from which only digits follow), and [replace]
    removes it.  [match_digits s] is the pair (s without the run, the run). *)
Fixpoint match_digits (s : string) : string * string :=
  match s with
  | EmptyString => (EmptyString, EmptyString)
  | String c s' =>
      let '(stem, digits) := match_digits s' in
      match stem with
      | EmptyString =>
          if is_digit c then (EmptyString, String c digits)
          else (String c EmptyString, digits)
      | _ => (String c stem, digits)
      end
  end.

(** [Number(digits)] on a string of decimal digits; [Number('')] is 0.
    JavaScript numbers are doubles: this is the value of [Number] as long as
    it does not exceed 2^53. *)
Fixpoint Number_from (acc : N) (digits : string) : N :=
  match digits with
  | EmptyString => acc
  | String c digits' => Number_from (10 * acc + (N_of_ascii c - 48))%N digits'
  end.

Definition Number (digits : string) : N := Number_from 0%N digits.

(** Up to this bound a double counts in steps of one ([index++] is exact) and
    prints as the plain decimal numeral. *)
Definition MAX_SAFE : N := 2 ^ 53.

(** An array index: a key that is the decimal numeral of a number below
    2^32 - 1.  An object enumerates such keys first, in ascending order. *)
Definition array_index (k : string) : option N :=
  let n := Number k in
  if decide (k = pretty n) then
    if (n <? 4294967295)%N then Some n else None
  else None.

Module AclDoc.

(** [this.rules]: an object used as a dictionary from subject ids to
    rules.  The list holds its own properties in the order [Object.keys],
    [Object.values] and [Object.entries] enumerate them: array indices
    first, in ascending order, then the other keys in insertion order. *)
Abbreviation Rules := (list (string * AclRule.t)).

Definition keys (o : Rules) : list string := o.*1.
Definition values (o : Rules) : list AclRule.t := o.*2.
Definition entries (o : Rules) : list (string * AclRule.t) := o.

(** [o[k]] read. *)
Fixpoint get (k : string) (o : Rules) : option AclRule.t :=
  match o with
  | [] => None
  | (k', v) :: o' => if decide (k' = k) then Some v else get k o'
  end.

(** What a method of the store may throw. *)
Inductive Error :=
| MissingAccessTo   (* the [Error] thrown by [_getDefaultAccessTo] *)
| EmptyReduction    (* the [TypeError] of [reduce] on an empty array *)
| NotAFunction      (* the [TypeError] of calling a property that is a rule *)
| OutOfModel.       (* the counter of [_getNewSubjectId] left the exact range *)

Inductive Result (A : Type) :=
| Ok (a : A)
| Throw (e : Error).
Arguments Ok {A} a.
Arguments Throw {A} e.

(** [o.hasOwnProperty(k)]: the method is looked up on the dictionary itself,
    so a rule stored under the key ["hasOwnProperty"] shadows the method of
    [Object.prototype] and the call throws. *)
Definition hasOwnProperty (o : Rules) (k : string) : Result bool :=
  match get "hasOwnProperty" o with
  | Some _ => Throw NotAFunction
  | None => Ok (bool_decide (is_Some (get k o)))
  end.

(** [o[k] = v] on an own property: the entry keeps its place. *)
Fixpoint overwrite (k : string) (v : AclRule.t) (o : Rules) : Rules :=
  match o with
  | [] => []
  | (k', v') :: o' =>
      if decide (k' = k) then (k, v) :: o' else (k', v') :: overwrite k v o'
  end.

(** A new array index [n] takes its place among the array indices. *)
Fixpoint insert_index (n : N) (k : string) (v : AclRule.t) (o : Rules) : Rules :=
  match o with
  | [] => [(k, v)]
  | (k', v') :: o' =>
      match array_index k' with
      | Some n' =>
          if (n' <? n)%N then (k', v') :: insert_index n k v o'
          else (k, v) :: (k', v') :: o'
      | None => (k, v) :: (k', v') :: o'
      end
  end.

(** [o[k] = v]: an own property is overwritten in place.  Otherwise the
    assignment of ["__proto__"] reaches the setter of [Object.prototype],
    which makes the rule the prototype of [o] and creates no property; any
    other key becomes a new property, an array index at its numeric place,
    another key last.  The prototype is not part of the state: the methods
    read own properties only, and a rule has no property [hasOwnProperty] of
    its own, so that method is still found behind the new prototype. *)
Definition set (k : string) (v : AclRule.t) (o : Rules) : Rules :=
  if bool_decide (is_Some (get k o)) then overwrite k v o
  else if decide (k = "__proto__") then o
  else match array_index k with
       | Some n => insert_index n k v o
       | None => o ++ [(k, v)]
       end.

(** [delete o[k]]. *)
Definition remove (k : string) (o : Rules) : Rules :=
  filter (λ kv, kv.1 ≠ k) o.

Record t := mk {
  defaultAccessTo : option string;
  rules : Rules;
  otherQuads : list Quad
}.

(** [constructor (options = {})]. *)
Definition new (defaultAccessTo : option string) : t :=
  mk defaultAccessTo [] [].

(** *** Methods as state transformers that may throw *)

(** A method call: from the document before to the outcome and the document
    after; what was written before a throw stays written. *)
Definition M (A : Type) : Type := t → Result A * t.

Definition ret {A} (a : A) : M A := λ d, (Ok a, d).
Definition bind {A B} (m : M A) (f : A → M B) : M B :=
  λ d, match m d with
       | (Ok a, d') => f a d'
       | (Throw e, d') => (Throw e, d')
       end.
Definition throw {A} (e : Error) : M A := λ d, (Throw e, d).
Definition lift {A} (r : Result A) : M A := λ d, (r, d).
Definition read {A} (f : t → A) : M A := λ d, (Ok (f d), d).
Definition write_rules (f : Rules → Rules) : M unit :=
  λ d, (Ok (), mk (defaultAccessTo d) (f (rules d)) (otherQuads d)).

Notation "'let*' x ':=' m 'in' k" := (bind m (λ x, k))
  (at level 10, x pattern, m at level 100, k at level 200).
Notation "m '>>' k" := (bind m (λ _, k))
  (at level 90, right associativity).

(** [for (const x of xs) body(x)]. *)
Fixpoint for_of {A} (xs : list A) (body : A → M unit) : M unit :=
  match xs with
  | [] => ret ()
  | x :: xs' => body x >> for_of xs' body
  end.

(** [xs.reduce(f)] without an initial value. *)
Definition reduce {A} (f : A → A → A) (xs : list A) : M A :=
  match xs with
  | [] => throw EmptyReduction
  | x :: xs' => ret (foldl f x xs')
  end.

Definition _getDefaultAccessTo : M string :=
  let* d := read defaultAccessTo in
  match d with
  | None => throw MissingAccessTo
  | Some s => if decide (s = "") then throw MissingAccessTo else ret s
  end.

(** The arguments of [AclRule.from] as the store's methods forward them:
    a rule, or permissions, agents and an optional [accessTo]
    (an absent one is the empty list). *)
Inductive RuleArgs :=
| OfRule (rule : AclRule.t)
| OfParts (permissions : Permissions.t) (agents : Agents.t) (accessTo : list string).

(** [AclRule.from]. *)
Definition from (args : RuleArgs) : AclRule.t :=
  match args with
  | OfRule firstVal => AclRule.clone firstVal
  | OfParts p a accessTo => AclRule.new p a accessTo AclRule.noOptions
  end.

(** The rule built is a fresh object, so the [push] touches no stored
    rule. *)
Definition _ruleFromArgs (args : RuleArgs) : M AclRule.t :=
  let rule := from args in
  if bool_decide (length (AclRule.accessTo rule) = 0) then
    let* d := _getDefaultAccessTo in
    ret (AclRule.mk (AclRule.permissions rule) (AclRule.agents rule)
           (AclRule.accessTo rule ++ [d]) (AclRule.otherQuads rule)
           (AclRule.default_ rule) (AclRule.defaultForNew rule))
  else ret rule.

(** The [while] loop of [_getNewSubjectId], at most [fuel] tests.  The model
    follows the counter only while the double is exact: beyond [MAX_SAFE]
    (where [Number] rounds and [index++] stalls) it gives no answer. *)
Fixpoint _getNewSubjectId_loop (fuel : nat) (o : Rules) (base : string) (index : N)
    : Result string :=
  match fuel with
  | O => Throw OutOfModel
  | S fuel' =>
      if (MAX_SAFE <? index)%N then Throw OutOfModel
      else match hasOwnProperty o (base +:+ pretty index) with
           | Throw e => Throw e
           | Ok true => _getNewSubjectId_loop fuel' o base (N.succ index)
           | Ok false => Ok (base +:+ pretty index)
           end
  end.

(** An absent [base] is ['new-acl-rule-1'].  The loop is run with one more
    test than there are rules, which suffices whenever the counter stays
    exact and the method is intact (lemma [_getNewSubjectId_loop_total]). *)
Definition _getNewSubjectId (base : option string) : M string :=
  let base := match base with Some b => b | None => "new-acl-rule-1" end in
  let '(stem, digits) := match_digits base in
  let index := Number digits in
  let* o := read rules in
  lift (_getNewSubjectId_loop (S (length o)) o stem index).

(** [subjectId || this._getNewSubjectId()]: an absent or empty id is
    generated. *)
Definition addRule (args : RuleArgs) (subjectId : option string) : M unit :=
  let* rule := _ruleFromArgs args in
  let* subjectId := match subjectId with
               | Some s => if decide (s = "") then _getNewSubjectId None else ret s
               | None => _getNewSubjectId None
               end in
  write_rules (set subjectId rule).

(** The inner [while] loop of [hasRule]: the rules to check are popped
    from the end, the fragments left of each are pushed in that order. *)
Definition subtract_all (rulesToCheck : list AclRule.t) (r : AclRule.t)
    : list AclRule.t :=
  flat_map (λ rule, AclRule.subtract rule r) (reverse rulesToCheck).

(** The outer [for] loop of [hasRule] over [Object.values(this.rules)]. *)
Fixpoint hasRule_loop (rs : list AclRule.t) (rulesToCheck : list AclRule.t) : bool :=
  match rs with
  | [] => false
  | r :: rs' =>
      let newRulesToCheck := subtract_all rulesToCheck r in
      if bool_decide (length newRulesToCheck = 0) then true
      else hasRule_loop rs' newRulesToCheck
  end.

Definition hasRule (args : RuleArgs) : M bool :=
  let* rule := _ruleFromArgs args in
  let* o := read rules in
  ret (hasRule_loop (values o) [rule]).

(** [this.rules[subjectId]] is read behind the test for an own property, so
    it is defined where it is used. *)
Definition deleteBySubject (subjectId : string) (rule : option AclRule.t) : M unit :=
  let* o := read rules in
  let* own := lift (hasOwnProperty o subjectId) in
  if (own : bool) then
    match rule with
    | None => write_rules (remove subjectId)
    | Some rule =>
        match get subjectId o with
        | None => ret ()
        | Some prevRule =>
            let newRules := AclRule.subtract prevRule rule in
            match newRules with
            | [newRule] => write_rules (set subjectId newRule)
            | _ =>
                write_rules (remove subjectId) >>
                for_of newRules (λ newRule,
                  let* newSubjectId := _getNewSubjectId (Some subjectId) in
                  write_rules (set newSubjectId newRule))
            end
        end
    end
  else ret ().

Definition deleteRule (args : RuleArgs) : M unit :=
  let* toDelete := _ruleFromArgs args in
  let* o := read rules in
  for_of (keys o) (λ subjectId, deleteBySubject subjectId (Some toDelete)).

Definition deleteAgents (agents : Agents.t) : M unit :=
  deleteRule (OfRule (AclRule.new Permissions.ALL agents [] AclRule.noOptions)).

Definition deletePermissions (permissions : Permissions.t) : M unit :=
  let* o := read rules in
  for_of (entries o) (λ '(subjectId, rule),
    let toDelete :=
      AclRule.new permissions (AclRule.agents rule) [] AclRule.noOptions in
    deleteBySubject subjectId (Some toDelete)).

Definition getPermissionsFor (agents : Agents.t) : M Permissions.t :=
  let* o := read rules in
  reduce Permissions.merge
    (map AclRule.permissions
       (filter (λ rule, Agents.includes (AclRule.agents rule) agents = true)
          (values o))).

Definition getAgentsWith (permissions : Permissions.t) : M Agents.t :=
  let* o := read rules in
  reduce Agents.merge
    (map AclRule.agents
       (filter (λ rule, Permissions.includes (AclRule.permissions rule) permissions = true)
          (values o))).

Definition getMinifiedRules : M Rules :=
  let* o := read rules in
  for_of (entries o) (λ '(subjectId, rule),
    if AclRule.hasNoEffect rule then write_rules (remove subjectId) else ret ()) >>
  read rules.

Definition addOther (other : Quad) : M unit :=
  λ d, (Ok (), mk (defaultAccessTo d) (rules d) (otherQuads d ++ [other])).

End AclDoc.

(** ** Vocabulary of the properties *)

(** A rule is a rectangle of (permission, agent) pairs. *)
Definition covers (r : AclRule.t) (p : Permissions.Permission) (a : Agents.Agent) : Prop :=
  p ∈ AclRule.permissions r ∧ a ∈ AclRule.agents r.

#[global] Instance covers_dec r p a : Decision (covers r p a).
Proof. unfold covers. apply _. Defined.

(** How many rules of a list contain the pair. *)
Definition count_covering (p : Permissions.Permission) (a : Agents.Agent)
    (frags : list AclRule.t) : nat :=
  length (filter (λ f, covers f p a) frags).

(** No pair lies in two rules at different positions of the list. *)
Definition pairwise_disjoint (frags : list AclRule.t) : Prop :=
  ∀ i j fi fj p a,
    i ≠ j → frags !! i = Some fi → frags !! j = Some fj →
    covers fi p a → covers fj p a → False.

(** [frags] is the rectangle of [A] minus that of [B], without overlap. *)
Definition exact_difference (A B : AclRule.t) (frags : list AclRule.t) : Prop :=
  pairwise_disjoint frags ∧
  ∀ p a,
    (covers A p a → ¬ covers B p a → count_covering p a frags = 1) ∧
    (covers B p a → count_covering p a frags = 0).

(** Every requested pair is granted by some rule of the list. *)
Definition covered (rs : list AclRule.t) (P : Permissions.t) (Ag : Agents.t) : Prop :=
  ∀ p a, p ∈ P → a ∈ Ag → ∃ r, r ∈ rs ∧ covers r p a.

(** The two pieces of [AclRule.subtract] before pruning. *)
Definition piece1 (A B : AclRule.t) : AclRule.t :=
  AclRule.new (AclRule.permissions A)
    (Agents.subtract (AclRule.agents A) (AclRule.agents B))
    (AclRule.accessTo A) (AclRule._getOptions A).
Definition piece2 (A B : AclRule.t) : AclRule.t :=
  AclRule.new (Permissions.subtract (AclRule.permissions A) (AclRule.permissions B))
    (Agents.common (AclRule.agents A) (AclRule.agents B))
    (AclRule.accessTo A) (AclRule._getOptions A).

(** A rule of the working list of [hasRule]: no foreign quads, some target. *)
Definition plain (f : AclRule.t) : Prop :=
  AclRule.otherQuads f = [] ∧ AclRule.accessTo f ≠ [].

(** The document has a usable default target. *)
Definition has_default (d : AclDoc.t) : Prop :=
  ∃ s, AclDoc.defaultAccessTo d = Some s ∧ s ≠ "".

(** Shape of the two parts [match_digits] splits a base into. *)
Fixpoint all_digits (s : string) : bool :=
  match s with
  | EmptyString => true
  | String c s' => is_digit c && all_digits s'
  end.

Fixpoint ends_with_digit (s : string) : bool :=
  match s with
  | EmptyString => false
  | String c EmptyString => is_digit c
  | String _ s' => ends_with_digit s'
  end.

(** [id] is [stem] followed by the smallest number from [start] on that
    makes an unused key of [o]. *)
Definition generated_id (o : AclDoc.Rules) (stem : string) (start : N) (id : string)
    : Prop :=
  ∃ i, id = stem +:+ pretty i ∧ (start ≤ i)%N ∧
       (i ≤ start + N.of_nat (length o))%N ∧
       (id ∉ AclDoc.keys o) ∧
       ∀ j, (start ≤ j < i)%N → stem +:+ pretty j ∈ AclDoc.keys o.

(** The start of the count as the specification words it: the trailing
    digits of the base, or 1 when it has none. *)
Definition claimed_start (digits : string) : N :=
  if decide (digits = "") then 1%N else Number digits.

(** *** Concrete rules and documents used below *)

Definition webA : Agents.Agent := Agents.WebId "A".
Definition webB : Agents.Agent := Agents.WebId "B".
Definition resource : string := "https://solid.example.org/foo/file.ext".
Definition other_resource : string := "https://solid.example.org/bar/".

(** The example of the documentation of [subtract]: two rules built without
    an [accessTo]. *)
Definition first_rule : AclRule.t :=
  AclRule.new {[Permissions.READ; Permissions.WRITE]}
    {[Agents.WebId "web"; Agents.WebId "id"]} [] AclRule.noOptions.
Definition second_rule : AclRule.t :=
  AclRule.new {[Permissions.READ]} {[Agents.WebId "web"]} [] AclRule.noOptions.

(** The same minuend with a target. *)
Definition first_rule_on_resource : AclRule.t :=
  AclRule.new {[Permissions.READ; Permissions.WRITE]}
    {[Agents.WebId "web"; Agents.WebId "id"]} [resource] AclRule.noOptions.

(** A rule that carries a statement it does not understand. *)
Definition rule_with_quad : AclRule.t :=
  AclRule.new {[Permissions.READ]} {[webA]} [resource]
    (AclRule.mkOptions
       (Some [mkQuad "#owner" "http://www.w3.org/2000/01/rdf-schema#label" "owner" ""])
       None None).

(** Two rules that differ in their target only. *)
Definition read_A_on_resource : AclRule.t :=
  AclRule.new {[Permissions.READ]} {[webA]} [resource] AclRule.noOptions.
Definition read_A_on_other : AclRule.t :=
  AclRule.new {[Permissions.READ]} {[webA]} [other_resource] AclRule.noOptions.

(** The rule of the scenario: read and write for A and B. *)
Definition s1_args : AclDoc.RuleArgs :=
  AclDoc.OfParts {[Permissions.READ; Permissions.WRITE]} {[webA; webB]} [].
Definition read_A : AclDoc.RuleArgs := AclDoc.OfParts {[Permissions.READ]} {[webA]} [].
Definition write_A : AclDoc.RuleArgs := AclDoc.OfParts {[Permissions.WRITE]} {[webA]} [].
Definition all_B : AclDoc.RuleArgs :=
  AclDoc.OfParts {[Permissions.READ; Permissions.WRITE]} {[webB]} [].

(** A document with a default target and the rule of the scenario under the
    subject ["s1"], as [addRule] stores it. *)
Definition scenario_doc (defaultAccessTo : string) : AclDoc.t :=
  (AclDoc.addRule s1_args (Some "s1") (AclDoc.new (Some defaultAccessTo))).2.

(** A document without default target that holds one rule for a named
    resource. *)
Definition doc_without_default : AclDoc.t :=
  AclDoc.mk None [("s1", read_A_on_resource)] [].

(** The second case of the claim on [deleteBySubject], as worded: the entry at
    [subjectId] is gone and every fragment sits under an id that was no key
    of the store before. *)
Definition moved_to_new_ids (before after : AclDoc.t) (subjectId : string)
    (fragments : list AclRule.t) : Prop :=
  AclDoc.get subjectId (AclDoc.rules after) = None ∧
  ∀ f, f ∈ fragments →
    ∃ id, (id ∉ AclDoc.keys (AclDoc.rules before)) ∧
          AclDoc.get id (AclDoc.rules after) = Some f.

(** No rule is stored under the key ["hasOwnProperty"]: the dictionary
    still answers to the method of that name. *)
Definition hasOwnProperty_intact (o : AclDoc.Rules) : Prop :=
  "hasOwnProperty" ∉ AclDoc.keys o.

(** The order in which an object enumerates two of its keys: array indices
    ascending, and before every other key. *)
Definition key_before (k k' : string) : Prop :=
  match array_index k, array_index k' with
  | Some n, Some n' => (n < n')%N
  | Some _, None => True
  | None, Some _ => False
  | None, None => True
  end.

(** The list holds the properties in the order the object enumerates them. *)
Definition enumeration_order (o : AclDoc.Rules) : Prop :=
  StronglySorted key_before (AclDoc.keys o).

(** *** Vocabulary of the further properties *)

(** A rule with the permissions of [P] taken away, everything else kept:
    what [deletePermissions] leaves of a stored rule. *)
Definition without_permissions (P : Permissions.t) (r : AclRule.t) : AclRule.t :=
  AclRule.mk (AclRule.permissions r ∖ P) (AclRule.agents r) (AclRule.accessTo r)
    (AclRule.otherQuads r) (AclRule.default_ r) (AclRule.defaultForNew r).

(** The entry [deletePermissions] leaves of a stored entry, if any. *)
Definition strip_entry (P : Permissions.t) (kv : string * AclRule.t)
    : option (string * AclRule.t) :=
  if AclRule.hasNoEffect (without_permissions P kv.2) then None
  else Some (kv.1, without_permissions P kv.2).

(** Subject ids are unique (an object has one property per name). *)
Definition unique_keys (o : AclDoc.Rules) : Prop := NoDup (AclDoc.keys o).

(** Every counter a run over all subjects may start stays exact, also when
    each subject is split in two. *)
Definition roomy (o : AclDoc.Rules) : Prop :=
  Forall (λ k, (Number (match_digits k).2 + 2 * N.of_nat (length o) ≤ MAX_SAFE)%N)
         (AclDoc.keys o).

(** No stored rule carries foreign quads. *)
Definition quad_free (o : AclDoc.Rules) : Prop :=
  Forall (λ r, AclRule.otherQuads r = []) (AclDoc.values o).

(** A document with two rules, one of them without effect. *)
Definition doc_with_empty_rule : AclDoc.t :=
  AclDoc.mk (Some resource)
    [("#owner", AclRule.new Permissions.ALL {[webA]} [resource] AclRule.noOptions);
     ("#nobody", AclRule.new {[Permissions.READ]} ∅ [resource] AclRule.noOptions);
     ("#public", AclRule.new {[Permissions.READ; Permissions.APPEND]} Agents.PUBLIC
                   [resource] AclRule.noOptions)]
    [].

(** A rule about B, on the same resource as [read_A_on_resource]. *)
Definition read_B_on_resource : AclRule.t :=
  AclRule.new {[Permissions.READ]} {[webB]} [resource] AclRule.noOptions.

(** A rule that names no agent. *)
Definition read_nobody : AclRule.t :=
  AclRule.new {[Permissions.READ]} ∅ [resource] AclRule.noOptions.

(** The scenario's document with one more rule, and a document that stores
    the rules of [doc_with_empty_rule] in the opposite order. *)
Definition scenario_doc_extended : AclDoc.t :=
  AclDoc.mk (Some resource)
    (AclDoc.rules (scenario_doc resource) ++ [("#other", read_A_on_other)]) [].


(** A document that stores a rule under the subject id ["hasOwnProperty"]. *)
Definition doc_shadowing : AclDoc.t :=
  AclDoc.mk (Some resource) [("hasOwnProperty", read_A_on_resource)] [].

(** ** The rule algebra *)

Section rule_algebra.
Implicit Types (A B f r : AclRule.t) (p : Permissions.Permission) (a : Agents.Agent).

Lemma subtract_pieces A B :
  AclRule.subtract A B =
  filter (λ rule, negb (AclRule.hasNoEffect rule)) [piece1 A B; piece2 A B].
Proof. reflexivity. Qed.

Lemma covers_piece1 A B p a :
  covers (piece1 A B) p a ↔ covers A p a ∧ a ∉ AclRule.agents B.
Proof. unfold covers, piece1, Agents.subtract; simpl. set_solver. Qed.

Lemma covers_piece2 A B p a :
  covers (piece2 A B) p a ↔
  covers A p a ∧ (p ∉ AclRule.permissions B) ∧ a ∈ AclRule.agents B.
Proof.
  unfold covers, piece2, Agents.common, Permissions.subtract; simpl. set_solver.
Qed.

Lemma hasNoEffect_true r :
  AclRule.hasNoEffect r = true ↔
  AclRule.otherQuads r = [] ∧
  (AclRule.permissions r = ∅ ∨ AclRule.agents r = ∅ ∨ AclRule.accessTo r = []).
Proof.
  unfold AclRule.hasNoEffect, Permissions.isEmpty, Agents.isEmpty.
  rewrite andb_true_iff, !orb_true_iff, !bool_decide_eq_true.
  rewrite !length_zero_iff_nil. tauto.
Qed.

(** A pruned rule of a rule with a target or with foreign quads is an empty
    rectangle. *)
Lemma hasNoEffect_covers r p a :
  AclRule.accessTo r ≠ [] ∨ AclRule.otherQuads r ≠ [] →
  AclRule.hasNoEffect r = true → ¬ covers r p a.
Proof.
  intros Hr [Hq Hempty]%hasNoEffect_true [Hp Ha].
  destruct Hempty as [E|[E|E]].
  - rewrite E in Hp. set_solver.
  - rewrite E in Ha. set_solver.
  - tauto.
Qed.

Lemma piece_accessTo A B :
  AclRule.accessTo (piece1 A B) = AclRule.accessTo A ∧
  AclRule.accessTo (piece2 A B) = AclRule.accessTo A.
Proof. done. Qed.

Lemma piece_otherQuads A B :
  AclRule.otherQuads (piece1 A B) = AclRule.otherQuads A ∧
  AclRule.otherQuads (piece2 A B) = AclRule.otherQuads A.
Proof. done. Qed.

(** What [equals] compares: every field but [accessTo]. *)
Lemma equals_true A B :
  AclRule.equals A B = true ↔
  AclRule.otherQuads A = AclRule.otherQuads B ∧
  AclRule.permissions A = AclRule.permissions B ∧
  AclRule.agents A = AclRule.agents B ∧
  AclRule.default_ A = AclRule.default_ B ∧
  AclRule.defaultForNew A = AclRule.defaultForNew B.
Proof.
  unfold AclRule.equals, iterableEquals, Permissions.equals, Agents.equals.
  rewrite !andb_true_iff, !bool_decide_eq_true. tauto.
Qed.

Lemma subtract_length A B : length (AclRule.subtract A B) ≤ 2.
Proof. rewrite subtract_pieces. apply (length_filter _ [_; _]). Qed.

(** Every fragment inherits the targets and quads of the minuend and is
    effective. *)
Lemma elem_of_subtract f A B :
  f ∈ AclRule.subtract A B →
  (f = piece1 A B ∨ f = piece2 A B) ∧
  AclRule.hasNoEffect f = false ∧
  AclRule.accessTo f = AclRule.accessTo A ∧
  AclRule.otherQuads f = AclRule.otherQuads A.
Proof.
  rewrite subtract_pieces, list_elem_of_filter.
  intros [Hf Hin]. apply negb_prop_elim, Is_true_false in Hf.
  assert (f = piece1 A B ∨ f = piece2 A B) as Hor by set_solver.
  split_and!; [done..| |]; by destruct Hor as [-> | ->].
Qed.

(** Pruning does not change which pairs are covered, and how often. *)
Lemma count_covering_subtract A B p a :
  AclRule.accessTo A ≠ [] ∨ AclRule.otherQuads A ≠ [] →
  count_covering p a (AclRule.subtract A B) =
  count_covering p a [piece1 A B; piece2 A B].
Proof.
  intros HA. rewrite subtract_pieces. unfold count_covering.
  assert (∀ f, f ∈ [piece1 A B; piece2 A B] →
               AclRule.hasNoEffect f = true → ¬ covers f p a) as Hdrop.
  { intros f Hf. apply hasNoEffect_covers.
    assert (f = piece1 A B ∨ f = piece2 A B) as [-> | ->] by set_solver; done. }
  revert Hdrop. generalize [piece1 A B; piece2 A B]. intros l.
  induction l as [|f l IH]; intros Hdrop; [done|].
  assert (∀ f', f' ∈ l → AclRule.hasNoEffect f' = true → ¬ covers f' p a) as Hl.
  { intros f' Hf'. apply Hdrop. by right. }
  specialize (IH Hl).
  destruct (AclRule.hasNoEffect f) eqn:E.
  - rewrite (filter_cons_False (λ rule, negb (AclRule.hasNoEffect rule)))
      by (rewrite E; simpl; tauto).
    rewrite (filter_cons_False (λ f, covers f p a) f); [done|].
    apply Hdrop; [left|done].
  - rewrite (filter_cons_True (λ rule, negb (AclRule.hasNoEffect rule)))
      by (by rewrite E).
    destruct (decide (covers f p a)).
    + rewrite !(filter_cons_True (λ f, covers f p a) f) by done. simpl. by rewrite IH.
    + by rewrite !(filter_cons_False (λ f, covers f p a) f) by done.
Qed.

Lemma count_covering_pieces A B p a :
  count_covering p a [piece1 A B; piece2 A B] =
  if decide (covers A p a ∧ ¬ covers B p a) then 1 else 0.
Proof.
  unfold count_covering. rewrite !filter_cons, filter_nil.
  pose proof (covers_piece1 A B p a) as H1.
  pose proof (covers_piece2 A B p a) as H2.
  unfold covers in *.
  destruct (decide (p ∈ AclRule.permissions B));
    destruct (decide (a ∈ AclRule.agents B));
    repeat case_decide; simpl; try done; exfalso; tauto.
Qed.

Lemma pieces_disjoint A B p a :
  covers (piece1 A B) p a → covers (piece2 A B) p a → False.
Proof. rewrite covers_piece1, covers_piece2. tauto. Qed.

Lemma subtract_pairwise_disjoint A B : pairwise_disjoint (AclRule.subtract A B).
Proof.
  rewrite subtract_pieces. intros i j fi fj p a Hij Hi Hj Hci Hcj.
  rewrite !filter_cons, filter_nil in Hi, Hj.
  destruct (negb (AclRule.hasNoEffect (piece1 A B)));
    destruct (negb (AclRule.hasNoEffect (piece2 A B)));
    repeat case_decide; try done;
    destruct i as [|[|i]]; destruct j as [|[|j]];
    simplify_eq/=; eauto using pieces_disjoint.
Qed.

(** The pairs of the fragments are those of [A] outside [B]. *)
Lemma subtract_covers A B p a :
  AclRule.accessTo A ≠ [] ∨ AclRule.otherQuads A ≠ [] →
  (∃ f, f ∈ AclRule.subtract A B ∧ covers f p a) ↔ covers A p a ∧ ¬ covers B p a.
Proof.
  intros HA. split.
  - intros (f & [Hf _]%elem_of_subtract & Hc).
    destruct Hf as [-> | ->].
    + apply covers_piece1 in Hc. unfold covers in *. tauto.
    + apply covers_piece2 in Hc. unfold covers in *. tauto.
  - intros Hc.
    pose proof (count_covering_subtract A B p a HA) as Hn.
    rewrite count_covering_pieces, decide_True in Hn by done.
    unfold count_covering in Hn.
    destruct (filter _ (AclRule.subtract A B)) as [|f l] eqn:E; [done|].
    assert (f ∈ filter (λ f, covers f p a) (AclRule.subtract A B)) as Hf
      by (rewrite E; left).
    apply list_elem_of_filter in Hf. naive_solver.
Qed.

End rule_algebra.

(** ** The containment loop of [hasRule] *)

Section containment.
Import AclDoc.
Implicit Types (f r q : AclRule.t) (ws rs : list AclRule.t).
Implicit Types (p : Permissions.Permission) (a : Agents.Agent).

Lemma elem_of_subtract_all f ws r :
  f ∈ subtract_all ws r ↔ ∃ w, w ∈ ws ∧ f ∈ AclRule.subtract w r.
Proof.
  unfold subtract_all. rewrite list_elem_of_In, in_flat_map.
  setoid_rewrite <-list_elem_of_In. setoid_rewrite elem_of_reverse. done.
Qed.

Lemma subtract_all_plain ws r :
  Forall plain ws → Forall plain (subtract_all ws r).
Proof.
  rewrite !Forall_forall. intros Hws f (w & Hw & Hf)%elem_of_subtract_all.
  apply elem_of_subtract in Hf as (_ & _ & Hacc & Hq).
  destruct (Hws w Hw) as [? ?]. split; congruence.
Qed.

Lemma subtract_all_covers ws r p a :
  Forall plain ws →
  (∃ f, f ∈ subtract_all ws r ∧ covers f p a) ↔
  (∃ w, w ∈ ws ∧ covers w p a) ∧ ¬ covers r p a.
Proof.
  rewrite Forall_forall. intros Hws. split.
  - intros (f & (w & Hw & Hf)%elem_of_subtract_all & Hc).
    destruct (Hws w Hw) as [_ Hacc].
    destruct (proj1 (subtract_covers w r p a (or_introl Hacc))) as [? ?]; eauto.
  - intros [(w & Hw & Hc) Hr].
    destruct (Hws w Hw) as [_ Hacc].
    destruct (proj2 (subtract_covers w r p a (or_introl Hacc))) as (f & Hf & Hcf);
      [done|].
    exists f. split; [|done]. apply elem_of_subtract_all. eauto.
Qed.

(** An effective rule without quads is a non-empty rectangle. *)
Lemma effective_inhabited f :
  AclRule.otherQuads f = [] → AclRule.hasNoEffect f = false →
  ∃ p a, covers f p a.
Proof.
  intros Hq Heff.
  destruct (decide (AclRule.permissions f = ∅)) as [E|HP].
  { assert (AclRule.hasNoEffect f = true) by (apply hasNoEffect_true; auto).
    congruence. }
  destruct (decide (AclRule.agents f = ∅)) as [E|HA].
  { assert (AclRule.hasNoEffect f = true) by (apply hasNoEffect_true; auto).
    congruence. }
  apply set_choose_L in HP as [p Hp]. apply set_choose_L in HA as [a Ha].
  by exists p, a.
Qed.

(** The loop answers whether the stored rules cover the working list; it
    never answers [true] on an empty store. *)
Lemma hasRule_loop_spec rs ws :
  Forall plain ws →
  hasRule_loop rs ws = true ↔
  rs ≠ [] ∧ ∀ p a, (∃ w, w ∈ ws ∧ covers w p a) → ∃ r, r ∈ rs ∧ covers r p a.
Proof.
  revert ws. induction rs as [|r rs IH]; intros ws Hws; simpl.
  { split; [done|]. by intros [? _]. }
  case_bool_decide as Hlen.
  - split; [intros _|done]. split; [done|].
    intros p a Hw. exists r. split; [left|].
    destruct (decide (covers r p a)) as [|Hr]; [done|exfalso].
    destruct (proj2 (subtract_all_covers ws r p a Hws)) as (f & Hf & _); [done|].
    apply length_zero_iff_nil in Hlen. rewrite Hlen in Hf. by apply elem_of_nil in Hf.
  - pose proof (subtract_all_plain ws r Hws) as Hnew.
    rewrite (IH _ Hnew). split.
    + intros [_ Hcov]. split; [done|]. intros p a Hw.
      destruct (decide (covers r p a)) as [|Hr]; [exists r; split; [left|done]|].
      destruct (Hcov p a) as (r' & Hr' & Hc).
      { apply subtract_all_covers; done. }
      exists r'. split; [by right|done].
    + intros [_ Hcov].
      assert (∀ p a, (∃ w, w ∈ subtract_all ws r ∧ covers w p a) →
                     ∃ r', r' ∈ rs ∧ covers r' p a) as Hcov'.
      { intros p a [Hw Hr]%subtract_all_covers; [|done].
        destruct (Hcov p a Hw) as (r' & Hr' & Hc).
        apply elem_of_cons in Hr' as [-> | Hr']; [done|eauto]. }
      split; [|done].
      destruct (subtract_all ws r) as [|f l] eqn:E; [done|].
      assert (f ∈ subtract_all ws r) as Hf by (rewrite E; left).
      assert (AclRule.hasNoEffect f = false) as Heff.
      { apply elem_of_subtract_all in Hf as (w & _ & Hf).
        by apply elem_of_subtract in Hf as (_ & ? & _). }
      apply Forall_cons in Hnew as [[Hq _] _].
      destruct (effective_inhabited f Hq Heff) as (p & a & Hc).
      destruct (Hcov' p a) as (r' & Hr' & _); [exists f; split; [left|done]|].
      intros ->. by apply elem_of_nil in Hr'.
Qed.

End containment.

(** ** The dictionary of rules *)

Section dictionary.
Import AclDoc.
Implicit Types (o : Rules) (k : string) (v : AclRule.t).

Lemma get_is_Some k o : is_Some (get k o) ↔ k ∈ keys o.
Proof.
  unfold keys. induction o as [|[k' v'] o IH]; simpl.
  - rewrite elem_of_nil. split; [by intros [? ?]|done].
  - rewrite elem_of_cons. case_decide; subst.
    + split; [by left|by eexists].
    + rewrite IH. naive_solver.
Qed.

Lemma get_None k o : get k o = None ↔ k ∉ keys o.
Proof. rewrite <-get_is_Some, eq_None_not_Some. done. Qed.

Lemma get_app k o1 o2 :
  get k (o1 ++ o2) = match get k o1 with Some v => Some v | None => get k o2 end.
Proof.
  induction o1 as [|[k0 v0] o1 IH]; simpl; [done|]. by case_decide.
Qed.

Lemma hasOwnProperty_intact_Ok o k :
  hasOwnProperty_intact o → hasOwnProperty o k = Ok (bool_decide (k ∈ keys o)).
Proof.
  intros Hint%get_None. unfold hasOwnProperty. rewrite Hint. f_equal.
  apply bool_decide_ext, get_is_Some.
Qed.

Lemma hasOwnProperty_shadowed o k :
  "hasOwnProperty" ∈ keys o → hasOwnProperty o k = Throw NotAFunction.
Proof. intros [v Hv]%get_is_Some. unfold hasOwnProperty. by rewrite Hv. Qed.

Lemma keys_overwrite k v o : keys (overwrite k v o) = keys o.
Proof.
  unfold keys. induction o as [|[k0 v0] o IH]; simpl; [done|].
  case_decide; simpl; [by subst|f_equal; apply IH].
Qed.

Lemma get_overwrite_eq k v o : k ∈ keys o → get k (overwrite k v o) = Some v.
Proof.
  unfold keys. induction o as [|[k0 v0] o IH]; simpl.
  - by intros ?%elem_of_nil.
  - intros Hin. destruct (decide (k0 = k)) as [->|Hne]; simpl.
    + by rewrite decide_True.
    + rewrite decide_False by done. apply IH.
      apply elem_of_cons in Hin as [?|?]; [congruence|done].
Qed.

Lemma get_overwrite_ne k k' v o : k ≠ k' → get k' (overwrite k v o) = get k' o.
Proof.
  intros Hne. induction o as [|[k0 v0] o IH]; simpl; [done|].
  destruct (decide (k0 = k)) as [->|]; simpl.
  - by rewrite !decide_False.
  - by rewrite IH.
Qed.

Lemma insert_index_Permutation n k v o : insert_index n k v o ≡ₚ (k, v) :: o.
Proof.
  induction o as [|[k0 v0] o IH]; simpl; [done|].
  destruct (array_index k0) as [n0|]; [|done].
  destruct (n0 <? n)%N; [|done]. rewrite IH. apply Permutation_swap.
Qed.

Lemma get_insert_index_ne n k k' v o :
  k ≠ k' → get k' (insert_index n k v o) = get k' o.
Proof.
  intros Hne. induction o as [|[k0 v0] o IH]; simpl.
  - by rewrite decide_False.
  - destruct (array_index k0) as [n0|]; [destruct (n0 <? n)%N|]; simpl;
      rewrite ?IH, ?(decide_False (P := k = k')) by done; done.
Qed.

Lemma get_insert_index_eq n k v o :
  k ∉ keys o → get k (insert_index n k v o) = Some v.
Proof.
  unfold keys. induction o as [|[k0 v0] o IH]; simpl.
  - intros _. by rewrite decide_True.
  - rewrite not_elem_of_cons. intros [Hne Hnin].
    destruct (array_index k0) as [n0|]; [destruct (n0 <? n)%N|]; simpl;
      rewrite ?decide_True by done; try done.
    rewrite decide_False by done. by apply IH.
Qed.

Lemma set_in k v o : k ∈ keys o → set k v o = overwrite k v o.
Proof.
  intros Hin%get_is_Some. unfold set. by rewrite bool_decide_eq_true_2.
Qed.

Lemma set_new k v o :
  k ∉ keys o →
  set k v o =
  if decide (k = "__proto__") then o
  else match array_index k with
       | Some n => insert_index n k v o
       | None => o ++ [(k, v)]
       end.
Proof.
  intros Hnin. unfold set. rewrite bool_decide_eq_false_2; [done|].
  by rewrite get_is_Some.
Qed.

(** Reading back what was assigned: always for an own property, and for a
    new one unless the key is ["__proto__"]. *)
Lemma get_set_eq_in k v o : k ∈ keys o → get k (set k v o) = Some v.
Proof. intros Hin. rewrite set_in by done. by apply get_overwrite_eq. Qed.

Lemma get_set_eq k v o : k ≠ "__proto__" → get k (set k v o) = Some v.
Proof.
  intros Hk. destruct (decide (k ∈ keys o)) as [Hin|Hnin].
  - by apply get_set_eq_in.
  - rewrite set_new, decide_False by done.
    destruct (array_index k); [by apply get_insert_index_eq|].
    apply get_None in Hnin. rewrite get_app, Hnin. simpl. by rewrite decide_True.
Qed.

Lemma get_set_ne k k' v o : k ≠ k' → get k' (set k v o) = get k' o.
Proof.
  intros Hne. destruct (decide (k ∈ keys o)) as [Hin|Hnin].
  - rewrite set_in by done. by apply get_overwrite_ne.
  - rewrite set_new by done. case_decide; [done|].
    destruct (array_index k); [by apply get_insert_index_ne|].
    rewrite get_app. simpl. rewrite decide_False by done. by destruct (get k' o).
Qed.

Lemma keys_set_in k v o : k ∈ keys o → keys (set k v o) = keys o.
Proof. intros Hin. rewrite set_in by done. apply keys_overwrite. Qed.

(** A new key that is no array index goes last. *)
Lemma set_notin k v o :
  k ∉ keys o → k ≠ "__proto__" → array_index k = None →
  set k v o = o ++ [(k, v)].
Proof. intros Hnin Hk Hidx. by rewrite set_new, decide_False, Hidx. Qed.

(** Assigning ["__proto__"] creates no property. *)
Lemma set_proto v o : "__proto__" ∉ keys o → set "__proto__" v o = o.
Proof. intros Hnin. by rewrite set_new, decide_True. Qed.

Lemma set_Permutation k v o :
  k ∉ keys o → k ≠ "__proto__" → set k v o ≡ₚ o ++ [(k, v)].
Proof.
  intros Hnin Hk. rewrite set_new, decide_False by done.
  destruct (array_index k); [|done].
  rewrite insert_index_Permutation. apply Permutation_cons_append.
Qed.

Lemma elem_of_keys_set x k v o : x ∈ keys (set k v o) → x = k ∨ x ∈ keys o.
Proof.
  destruct (decide (k ∈ keys o)) as [Hin|Hnin].
  - rewrite keys_set_in by done. auto.
  - rewrite set_new by done. case_decide; [auto|].
    destruct (array_index k).
    + unfold keys. rewrite insert_index_Permutation, fmap_cons, elem_of_cons. auto.
    + unfold keys. rewrite fmap_app, elem_of_app. simpl.
      rewrite list_elem_of_singleton. tauto.
Qed.

Lemma length_set k v o : length (set k v o) ≤ S (length o).
Proof.
  destruct (decide (k ∈ keys o)) as [Hin|Hnin].
  - assert (length (keys (set k v o)) = length (keys o)) as Hl
      by (by rewrite keys_set_in).
    unfold keys in Hl. rewrite !length_fmap in Hl. lia.
  - rewrite set_new by done. case_decide; [lia|].
    destruct (array_index k).
    + rewrite insert_index_Permutation. simpl. lia.
    + rewrite length_app. simpl. lia.
Qed.

Lemma get_remove_eq k o : get k (remove k o) = None.
Proof.
  apply get_None. unfold keys, remove. rewrite list_elem_of_fmap.
  intros ([k' v'] & -> & [Hne _]%list_elem_of_filter). done.
Qed.

Lemma get_remove_ne k k' o : k ≠ k' → get k' (remove k o) = get k' o.
Proof.
  intros Hne. unfold remove. induction o as [|[k0 v0] o IH]; [done|].
  destruct (decide (k0 = k)) as [->|Hk].
  - rewrite filter_cons_False by (simpl; tauto).
    simpl. by rewrite decide_False.
  - rewrite filter_cons_True by done. simpl. by rewrite IH.
Qed.

Lemma keys_remove k o : keys (remove k o) = filter (λ k', k' ≠ k) (keys o).
Proof.
  unfold keys, remove. induction o as [|[k0 v0] o IH]; [done|].
  rewrite fmap_cons. simpl. destruct (decide (k0 = k)) as [->|Hk].
  - rewrite !filter_cons_False by (simpl; tauto). done.
  - rewrite !filter_cons_True by done. by rewrite fmap_cons, IH.
Qed.

Lemma not_elem_of_keys_remove k o : k ∉ keys (remove k o).
Proof. apply get_None, get_remove_eq. Qed.

Lemma length_keys o : length (keys o) = length o.
Proof. unfold keys. by rewrite length_fmap. Qed.

Lemma get_Some_elem k v o : get k o = Some v → (k, v) ∈ o.
Proof.
  induction o as [|[k0 v0] o IH]; simpl; [done|].
  case_decide; subst.
  - intros [= ->]. left.
  - intros ?. right. auto.
Qed.

Lemma length_remove_lt k v o : get k o = Some v → length (remove k o) < length o.
Proof.
  intros H%get_Some_elem. unfold remove.
  apply (length_filter_lt _ _ (k, v)); [done|]. simpl. tauto.
Qed.

Lemma intact_remove k o : hasOwnProperty_intact o → hasOwnProperty_intact (remove k o).
Proof.
  unfold hasOwnProperty_intact. rewrite keys_remove.
  intros Hint [_ Hin]%list_elem_of_filter. done.
Qed.

Lemma intact_set k v o :
  hasOwnProperty_intact o → k ≠ "hasOwnProperty" → hasOwnProperty_intact (set k v o).
Proof.
  unfold hasOwnProperty_intact. intros Hint Hk [E|Hin]%elem_of_keys_set;
    [congruence|done].
Qed.

(** The representation is kept: assignment and [delete] leave the list in
    enumeration order. *)
Lemma array_index_pretty k n : array_index k = Some n → k = pretty n.
Proof.
  unfold array_index. case_decide as E; [|done].
  case_match; [|done]. by intros [= <-].
Qed.

Lemma enumeration_order_remove k o :
  enumeration_order o → enumeration_order (remove k o).
Proof.
  unfold enumeration_order. rewrite keys_remove.
  induction 1 as [|k0 ks Hs IH Hall]; [constructor|].
  destruct (decide (k0 ≠ k)).
  - rewrite filter_cons_True by done. constructor; [done|].
    apply Forall_forall. intros x [_ Hx]%list_elem_of_filter.
    by eapply Forall_forall in Hall.
  - by rewrite filter_cons_False.
Qed.

Lemma enumeration_order_overwrite k v o :
  enumeration_order o → enumeration_order (overwrite k v o).
Proof. unfold enumeration_order. by rewrite keys_overwrite. Qed.

Lemma enumeration_order_append k v o :
  array_index k = None → enumeration_order o → enumeration_order (o ++ [(k, v)]).
Proof.
  unfold enumeration_order, keys. intros Hk. rewrite fmap_app. simpl.
  induction 1 as [|k0 ks Hs IH Hall]; simpl.
  - repeat constructor.
  - constructor; [done|]. apply Forall_app. split; [done|].
    constructor; [|constructor].
    unfold key_before. rewrite Hk.
    destruct (array_index k0) eqn:E0; [done|done].
Qed.

Lemma enumeration_order_insert_index n k v o :
  array_index k = Some n → k ∉ keys o →
  enumeration_order o → enumeration_order (insert_index n k v o).
Proof.
  unfold enumeration_order. intros Hk.
  induction o as [|[k0 v0] o IH]; intros Hnew Hs.
  - simpl. repeat constructor.
  - unfold keys in *. rewrite fmap_cons in Hnew, Hs. simpl in Hnew, Hs.
    apply not_elem_of_cons in Hnew as [Hne Hnew].
    inversion Hs as [|? ? Hs' Hall]; subst.
    assert (Forall (key_before k) (k0 :: o.*1) →
            StronglySorted key_before (k :: k0 :: o.*1)) as Hfront.
    { intros ?. by constructor. }
    simpl. destruct (array_index k0) as [n0|] eqn:E0.
    + destruct (n0 <? n)%N eqn:Hlt.
      * apply N.ltb_lt in Hlt. rewrite fmap_cons. simpl.
        constructor; [by apply IH|].
        apply Forall_forall. intros x Hx.
        assert (x ∈ (insert_index n k v o).*1 → x ∈ k :: o.*1) as Hperm.
        { by rewrite (insert_index_Permutation n k v o). }
        apply Hperm in Hx. apply elem_of_cons in Hx as [->|Hx].
        -- unfold key_before. by rewrite E0, Hk.
        -- by eapply Forall_forall in Hall.
      * apply N.ltb_ge in Hlt. apply Hfront.
        assert (n < n0)%N as Hlt'.
        { apply N.le_neq. split; [done|]. intros ->.
          apply array_index_pretty in Hk, E0. congruence. }
        constructor.
        -- unfold key_before. by rewrite Hk, E0.
        -- eapply Forall_impl; [exact Hall|]. intros x.
           unfold key_before. rewrite Hk, E0.
           destruct (array_index x); [lia|done].
    + apply Hfront. constructor.
      * unfold key_before. by rewrite Hk, E0.
      * eapply Forall_impl; [exact Hall|]. intros x.
        unfold key_before. rewrite Hk, E0.
        by destruct (array_index x).
Qed.

Lemma enumeration_order_set k v o :
  enumeration_order o → enumeration_order (set k v o).
Proof.
  intros Hs. unfold set. case_bool_decide as Hin.
  - by apply enumeration_order_overwrite.
  - case_decide; [done|].
    assert (k ∉ keys o) as Hnew.
    { intros Hk. apply Hin. by apply get_is_Some. }
    destruct (array_index k) as [n|] eqn:E.
    + by apply enumeration_order_insert_index.
    + by apply enumeration_order_append.
Qed.

End dictionary.

(** ** Fresh subject ids *)

Section fresh_ids.
Import AclDoc.
Implicit Types (o : Rules) (stem base : string) (index i j : N).

Lemma append_inj stem (x y : string) : stem +:+ x = stem +:+ y → x = y.
Proof. induction stem as [|c stem IH]; simpl; [done|]. intros [=]. auto. Qed.

Lemma candidate_inj stem i j : stem +:+ pretty i = stem +:+ pretty j → i = j.
Proof. intros H%append_inj. by apply (inj pretty). Qed.

Lemma match_digits_spec base :
  base = (match_digits base).1 +:+ (match_digits base).2 ∧
  all_digits (match_digits base).2 = true ∧
  ends_with_digit (match_digits base).1 = false.
Proof.
  induction base as [|c s IH]; simpl; [done|].
  destruct (match_digits s) as [stem digits]; simpl in *.
  destruct IH as (Hs & Hd & He).
  destruct stem as [|c' stem]; simpl in *.
  - destruct (is_digit c) eqn:Ec; simpl.
    + rewrite Ec. by subst.
    + by subst.
  - split_and!; [by rewrite Hs|done|done].
Qed.

(** The candidates with numbers [index], ..., [index + n - 1]. *)
Lemma candidates_bound o stem index n :
  (∀ m, m < n → stem +:+ pretty (index + N.of_nat m)%N ∈ keys o) →
  n ≤ length o.
Proof.
  intros Hall.
  set (cands := (λ m, stem +:+ pretty (index + N.of_nat m)%N) <$> seq 0 n).
  assert (NoDup cands) as Hnd.
  { apply NoDup_fmap_2; [|apply NoDup_seq].
    intros m1 m2 Hm%candidate_inj. lia. }
  assert (cands ⊆+ keys o) as Hsub.
  { apply NoDup_submseteq; [done|].
    intros x (m & -> & Hm%elem_of_seq)%list_elem_of_fmap. apply Hall. lia. }
  apply submseteq_length in Hsub.
  unfold cands in Hsub. by rewrite length_fmap, length_seq, length_keys in Hsub.
Qed.

(** What the loop returns: the first candidate from [index] on that is not
    a key. *)
Lemma _getNewSubjectId_loop_Ok fuel o stem index id :
  hasOwnProperty_intact o →
  _getNewSubjectId_loop fuel o stem index = Ok id →
  ∃ i, id = stem +:+ pretty i ∧ (index ≤ i)%N ∧ (id ∉ keys o) ∧
       ∀ j, (index ≤ j < i)%N → stem +:+ pretty j ∈ keys o.
Proof.
  intros Hint. revert index. induction fuel as [|fuel IH]; intros index; simpl; [done|].
  destruct (MAX_SAFE <? index)%N; [done|].
  rewrite hasOwnProperty_intact_Ok by done.
  case_bool_decide as E.
  - intros (i & -> & Hle & Hnin & Hbelow)%IH.
    exists i. split_and!; [done|lia|done|].
    intros j Hj. destruct (decide (j = index)) as [->|]; [done|].
    apply Hbelow. lia.
  - intros [= <-]. exists index. split_and!; [done|lia|done|intros; lia].
Qed.

(** When the loop gives no answer, it ran out of tests or of exact numbers
    after [n] used candidates. *)
Lemma _getNewSubjectId_loop_Throw fuel o stem index e :
  hasOwnProperty_intact o →
  _getNewSubjectId_loop fuel o stem index = Throw e →
  ∃ n, (∀ m, m < n → stem +:+ pretty (index + N.of_nat m)%N ∈ keys o) ∧
       (n = fuel ∨ (MAX_SAFE < index + N.of_nat n)%N).
Proof.
  intros Hint. revert index. induction fuel as [|fuel IH]; intros index; simpl.
  { intros _. exists 0. split; [lia|by left]. }
  destruct (MAX_SAFE <? index)%N eqn:Esafe.
  { intros _. exists 0. split; [lia|right]. apply N.ltb_lt in Esafe. lia. }
  rewrite hasOwnProperty_intact_Ok by done.
  case_bool_decide as E; [|done].
  intros (n & Hall & Hend)%IH. exists (S n). split.
  - intros [|m] Hm.
    + by rewrite N.add_0_r.
    + replace (index + N.of_nat (S m))%N with (N.succ index + N.of_nat m)%N by lia.
      apply Hall. lia.
  - destruct Hend as [->|Hend]; [by left|right; lia].
Qed.

(** The loop ends: among more candidates than there are rules, one is
    unused. *)
Lemma _getNewSubjectId_loop_total fuel o stem index :
  hasOwnProperty_intact o →
  length o < fuel → (index + N.of_nat (length o) ≤ MAX_SAFE)%N →
  ∃ id, _getNewSubjectId_loop fuel o stem index = Ok id.
Proof.
  intros Hint Hfuel Hsafe.
  destruct (_getNewSubjectId_loop fuel o stem index) as [id|e] eqn:E; [by eexists|].
  exfalso.
  destruct (_getNewSubjectId_loop_Throw _ _ _ _ _ Hint E) as (n & Hall & Hend).
  apply candidates_bound in Hall. destruct Hend; lia.
Qed.

(** With a rule stored under ["hasOwnProperty"] the first test throws. *)
Lemma _getNewSubjectId_loop_shadowed fuel o stem index :
  "hasOwnProperty" ∈ keys o → (index ≤ MAX_SAFE)%N →
  _getNewSubjectId_loop (S fuel) o stem index = Throw NotAFunction.
Proof.
  intros Hin Hsafe. simpl.
  destruct (MAX_SAFE <? index)%N eqn:E; [apply N.ltb_lt in E; lia|].
  by rewrite hasOwnProperty_shadowed.
Qed.

Lemma _getNewSubjectId_run base d :
  hasOwnProperty_intact (rules d) →
  (Number (match_digits base).2 + N.of_nat (length (rules d)) ≤ MAX_SAFE)%N →
  ∃ id, _getNewSubjectId (Some base) d = (Ok id, d) ∧
        generated_id (rules d) (match_digits base).1 (Number (match_digits base).2) id.
Proof.
  intros Hint Hsafe. unfold _getNewSubjectId, bind, read, lift.
  destruct (match_digits base) as [stem digits]; cbn [fst snd] in *.
  destruct (_getNewSubjectId_loop_total (S (length (rules d))) (rules d) stem
              (Number digits)) as [id Hid]; [done|lia|done|].
  rewrite Hid. exists id. split; [done|].
  destruct (_getNewSubjectId_loop_Ok _ _ _ _ _ Hint Hid)
    as (i & -> & Hle & Hnin & Hbelow).
  exists i. split_and!; [done..| |done|done].
  assert (N.to_nat (i - Number digits) ≤ length (rules d)); [|lia].
  apply (candidates_bound (rules d) stem (Number digits)).
  intros m Hm. apply Hbelow. lia.
Qed.

(** *** The shape of generated ids *)

Lemma is_digit_pretty_N_char m : is_digit (pretty_N_char m) = true.
Proof. unfold pretty_N_char. by repeat case_match. Qed.

Lemma all_digits_pretty_N_go x s :
  all_digits s = true → all_digits (pretty_N_go x s) = true.
Proof.
  revert s. induction (N.lt_wf_0 x) as [x _ IH]; intros s Hs.
  destruct (decide (0 < x)%N) as [Hx|Hx].
  - rewrite pretty_N_go_step by done. apply IH.
    + by apply N.div_lt.
    + simpl. by rewrite is_digit_pretty_N_char, Hs.
  - assert (x = 0%N) as -> by lia. by rewrite pretty_N_go_0.
Qed.

Lemma pretty_N_go_nonempty x s : s ≠ "" → pretty_N_go x s ≠ "".
Proof.
  revert s. induction (N.lt_wf_0 x) as [x _ IH]; intros s Hs.
  destruct (decide (0 < x)%N) as [Hx|Hx].
  - rewrite pretty_N_go_step by done. apply IH; [by apply N.div_lt|done].
  - assert (x = 0%N) as -> by lia. by rewrite pretty_N_go_0.
Qed.

Lemma pretty_digits (n : N) : all_digits (pretty n) = true ∧ pretty n ≠ "".
Proof.
  unfold pretty, pretty_N. case_decide; [done|].
  split; [by apply all_digits_pretty_N_go|].
  rewrite pretty_N_go_step by lia. by apply pretty_N_go_nonempty.
Qed.

Lemma ends_with_digit_all s :
  s ≠ "" → all_digits s = true → ends_with_digit s = true.
Proof.
  induction s as [|c s IH]; [done|]. intros _. simpl.
  intros [Hc Hs]%andb_true_iff. destruct s as [|c' s]; [done|]. by apply IH.
Qed.

Lemma ends_with_digit_app s t :
  t ≠ "" → ends_with_digit (s +:+ t) = ends_with_digit t.
Proof.
  intros Ht. induction s as [|c s IH]; [done|].
  change (String c s +:+ t) with (String c (s +:+ t)).
  destruct (s +:+ t) as [|c' s'] eqn:E.
  - exfalso. destruct s as [|c0 s0]; [exact (Ht E)|].
    change (String c0 (s0 +:+ t) = "") in E. discriminate.
  - exact IH.
Qed.

(** A generated id ends in a digit: it is neither ["hasOwnProperty"] nor
    ["__proto__"]. *)
Lemma candidate_ends_with_digit stem i : ends_with_digit (stem +:+ pretty i) = true.
Proof.
  destruct (pretty_digits i) as [Hd Hne].
  rewrite ends_with_digit_app by done. by apply ends_with_digit_all.
Qed.

Lemma candidate_not_special stem i :
  stem +:+ pretty i ≠ "hasOwnProperty" ∧ stem +:+ pretty i ≠ "__proto__".
Proof.
  pose proof (candidate_ends_with_digit stem i) as H.
  split; intros E; rewrite E in H; by vm_compute in H.
Qed.

Lemma generated_id_not_special o stem start id :
  generated_id o stem start id → id ≠ "hasOwnProperty" ∧ id ≠ "__proto__".
Proof. intros (i & -> & _). apply candidate_not_special. Qed.

Lemma array_index_digits k n : array_index k = Some n → all_digits k = true.
Proof.
  unfold array_index. case_decide as E; [|done]. intros _.
  rewrite E. apply pretty_digits.
Qed.

End fresh_ids.

(** ** Running the methods *)

Section methods.
Import AclDoc.
Implicit Types (d : AclDoc.t) (q r : AclRule.t) (args : RuleArgs).

Lemma _ruleFromArgs_cases args d :
  (_ruleFromArgs args d = (Throw MissingAccessTo, d) ∧
   AclRule.accessTo (from args) = [] ∧ ¬ has_default d) ∨
  (∃ q, _ruleFromArgs args d = (Ok q, d) ∧
        AclRule.accessTo q ≠ [] ∧
        AclRule.permissions q = AclRule.permissions (from args) ∧
        AclRule.agents q = AclRule.agents (from args) ∧
        AclRule.otherQuads q = AclRule.otherQuads (from args) ∧
        (AclRule.accessTo (from args) ≠ [] ∨ has_default d)).
Proof.
  unfold _ruleFromArgs, _getDefaultAccessTo, bind, read, ret, throw, has_default.
  case_bool_decide as Hlen.
  - apply length_zero_iff_nil in Hlen.
    destruct (defaultAccessTo d) as [s|] eqn:Ed.
    + destruct (decide (s = "")) as [->|Hs].
      * left. split_and!; [done..|]. intros (s' & [= <-] & ?). done.
      * right. eexists. split_and!; [done| |done..|right; eauto].
        simpl. by destruct (AclRule.accessTo (from args)).
    + left. split_and!; [done..|]. by intros (s' & [=] & _).
  - right. exists (from args). split_and!; [done| |done..|left].
    + intros E. by rewrite E in Hlen.
    + intros E. by rewrite E in Hlen.
Qed.

Lemma _ruleFromArgs_state args d : (_ruleFromArgs args d).2 = d.
Proof.
  destruct (_ruleFromArgs_cases args d) as [[-> _]|(q & -> & _)]; done.
Qed.

Lemma hasRule_run args d q :
  _ruleFromArgs args d = (Ok q, d) →
  hasRule args d = (Ok (hasRule_loop (values (rules d)) [q]), d).
Proof. intros H. unfold hasRule, bind. by rewrite H. Qed.

Lemma hasRule_throws args d e :
  _ruleFromArgs args d = (Throw e, d) → hasRule args d = (Throw e, d).
Proof. intros H. unfold hasRule, bind. by rewrite H. Qed.

Lemma reduce_state {A} (f : A → A → A) xs d : (reduce f xs d).2 = d.
Proof. by destruct xs. Qed.

(** [deleteBySubject] behind its test, on a stored subject. *)
Lemma deleteBySubject_own dflt oq o k prev q :
  hasOwnProperty_intact o → get k o = Some prev →
  deleteBySubject k (Some q) (AclDoc.mk dflt o oq) =
  match AclRule.subtract prev q with
  | [newRule] => write_rules (set k newRule)
  | newRules =>
      write_rules (remove k) >>
      for_of newRules (λ newRule,
        let* newSubjectId := _getNewSubjectId (Some k) in
        write_rules (set newSubjectId newRule))
  end (AclDoc.mk dflt o oq).
Proof.
  intros Hint Hget. unfold deleteBySubject, bind at 1, read at 1. cbn [rules].
  unfold bind at 1, lift. rewrite hasOwnProperty_intact_Ok by done.
  rewrite bool_decide_eq_true_2 by (apply get_is_Some; by eexists).
  rewrite Hget. by destruct (AclRule.subtract prev q) as [|? [|? ?]].
Qed.

(** The two-fragment case: the entry is removed, then each fragment is
    assigned to an id generated on the store as it is by then. *)
Lemma deleteBySubject_split dflt oq o k prev q f1 f2 :
  hasOwnProperty_intact o → get k o = Some prev →
  AclRule.subtract prev q = [f1; f2] →
  (Number (match_digits k).2 + N.of_nat (length o) ≤ MAX_SAFE)%N →
  ∃ id1 id2,
    generated_id (remove k o) (match_digits k).1 (Number (match_digits k).2) id1 ∧
    generated_id (set id1 f1 (remove k o)) (match_digits k).1
      (Number (match_digits k).2) id2 ∧
    deleteBySubject k (Some q) (AclDoc.mk dflt o oq) =
    (Ok (), AclDoc.mk dflt (set id2 f2 (set id1 f1 (remove k o))) oq).
Proof.
  intros Hint Hget E Hsafe.
  pose proof (length_remove_lt _ _ _ Hget) as Hrem.
  set (rest := remove k o) in *.
  set (d1 := AclDoc.mk dflt rest oq).
  destruct (_getNewSubjectId_run k d1) as (id1 & Hrun1 & Hid1).
  { by apply intact_remove. }
  { cbn [rules d1]. lia. }
  set (d2 := AclDoc.mk dflt (set id1 f1 rest) oq).
  destruct (_getNewSubjectId_run k d2) as (id2 & Hrun2 & Hid2).
  { cbn [rules d2]. apply intact_set; [by apply intact_remove|].
    by destruct (generated_id_not_special _ _ _ _ Hid1). }
  { cbn [rules d2]. pose proof (length_set id1 f1 rest). lia. }
  exists id1, id2. split_and!; [done..|].
  rewrite (deleteBySubject_own _ _ _ _ prev) by done. rewrite E.
  unfold write_rules, for_of, bind, ret.
  cbn [rules defaultAccessTo otherQuads]. fold rest. fold d1. rewrite Hrun1.
  cbn [rules defaultAccessTo otherQuads d1]. fold d2. by rewrite Hrun2.
Qed.

End methods.

(** ** The claims *)

Section claims.
Import AclDoc.

(** X27.  For rules [A] and [B] where [A] names a target (or carries foreign
    quads), the list [AclRule.subtract A B] is pairwise disjoint in
    (permission, agent) pairs, every pair of [A] outside [B] lies in exactly
    one fragment, and every pair of [B] lies in none. *)
Theorem subtract_exact (A B : AclRule.t) :
  AclRule.accessTo A ≠ [] ∨ AclRule.otherQuads A ≠ [] →
  exact_difference A B (AclRule.subtract A B).
Proof.
  intros HA. split; [apply subtract_pairwise_disjoint|].
  intros p a. rewrite (count_covering_subtract A B p a HA), count_covering_pieces.
  split.
  - intros HcA HcB. by rewrite decide_True.
  - intros HcB. rewrite decide_False; [done|tauto].
Qed.

(** C2, as amended.  For a rule [A] without foreign quads,
    [AclRule.subtract A A] is the empty list. *)
Theorem subtract_self (A : AclRule.t) :
  AclRule.otherQuads A = [] → AclRule.subtract A A = [].
Proof.
  intros Hq. rewrite subtract_pieces.
  assert (AclRule.hasNoEffect (piece1 A A) = true) as H1.
  { apply hasNoEffect_true. split; [done|]. right; left.
    unfold piece1, Agents.subtract; simpl. set_solver. }
  assert (AclRule.hasNoEffect (piece2 A A) = true) as H2.
  { apply hasNoEffect_true. split; [done|]. left.
    unfold piece2, Permissions.subtract; simpl. set_solver. }
  rewrite filter_cons_False by (rewrite H1; simpl; tauto).
  rewrite filter_cons_False by (rewrite H2; simpl; tauto).
  done.
Qed.

(** C3, as amended.  On a document with a default target (or when the query
    names a target), [hasRule] with non-empty permissions [P] and agents
    [Ag] returns, and returns [true] exactly when every pair of [P] and [Ag]
    is granted by some stored rule. *)
Theorem hasRule_covered (d : AclDoc.t) (P : Permissions.t) (Ag : Agents.t)
    (accessTo : list string) :
  P ≠ ∅ → Ag ≠ ∅ → accessTo ≠ [] ∨ has_default d →
  ∃ b, hasRule (OfParts P Ag accessTo) d = (Ok b, d) ∧
       (b = true ↔ covered (values (rules d)) P Ag).
Proof.
  intros HP HAg Hacc.
  destruct (_ruleFromArgs_cases (OfParts P Ag accessTo) d)
    as [(_ & E & Hno)|(q & Hrun & Hq & HqP & HqA & Hquads & _)].
  { simpl in E. tauto. }
  simpl in *. eexists. split; [by apply hasRule_run|].
  rewrite hasRule_loop_spec by (by repeat constructor).
  unfold covered. split.
  - intros [_ Hcov] p a Hp Ha. apply Hcov. exists q. split; [left|].
    unfold covers. by rewrite HqP, HqA.
  - intros Hcov. split.
    + apply set_choose_L in HP as [p Hp]. apply set_choose_L in HAg as [a Ha].
      destruct (Hcov p a Hp Ha) as (r & Hr & _). intros E. rewrite E in Hr.
      by apply elem_of_nil in Hr.
    + intros p a (w & ->%list_elem_of_singleton & [Hp Ha]).
      apply Hcov; congruence.
Qed.

(** C9.  The three queries hand back the document they were given. *)
Theorem queries_keep_document (d : AclDoc.t) (args : RuleArgs)
    (agents : Agents.t) (permissions : Permissions.t) :
  (hasRule args d).2 = d ∧
  (getPermissionsFor agents d).2 = d ∧
  (getAgentsWith permissions d).2 = d.
Proof.
  split_and!.
  - destruct (_ruleFromArgs_cases args d) as [[H _]|(q & H & _)].
    + by rewrite (hasRule_throws _ _ _ H).
    + by rewrite (hasRule_run _ _ _ H).
  - unfold getPermissionsFor, bind, read. apply reduce_state.
  - unfold getAgentsWith, bind, read. apply reduce_state.
Qed.

(** C10.  When the query rule built by [_ruleFromArgs] has no effect,
    [hasRule] returns [true] exactly when the store holds at least one rule. *)
Theorem hasRule_ineffective (d : AclDoc.t) (args : RuleArgs) (q : AclRule.t) :
  (_ruleFromArgs args d).1 = Ok q →
  AclRule.hasNoEffect q = true →
  hasRule args d = (Ok (bool_decide (rules d ≠ [])), d).
Proof.
  intros Hq Heff.
  destruct (_ruleFromArgs_cases args d) as [[H _]|(q' & H & Hacc & _)];
    rewrite H in Hq; simpl in Hq; [done|]. injection Hq as ->.
  rewrite (hasRule_run _ _ _ H). do 2 f_equal.
  apply hasNoEffect_true in Heff as [Hquads Hempty].
  assert (∀ p a, ¬ covers q p a) as Hnone.
  { intros p a [Hp Ha]. destruct Hempty as [E|[E|E]]; [| |done].
    - rewrite E in Hp. set_solver.
    - rewrite E in Ha. set_solver. }
  apply eq_true_iff_eq. rewrite bool_decide_eq_true.
  rewrite hasRule_loop_spec by (by repeat constructor).
  assert (values (rules d) ≠ [] ↔ rules d ≠ []) as <-.
  { unfold values. by destruct (rules d). }
  split; [by intros [? _]|]. intros Hne. split; [done|].
  intros p a (w & ->%list_elem_of_singleton & Hc). by destruct (Hnone p a).
Qed.

(** C7, as amended.  [deleteBySubject] on a stored subject with a target
    rule, on a store that holds no rule under ["hasOwnProperty"]: one
    fragment replaces the entry in place (same keys); no fragment removes the
    entry; two fragments remove the entry and are then assigned, in order, to
    ids generated from [subjectId], each unused in the store at the moment it
    is generated, that is, after the entry was removed.  Entries at other
    subject ids are unchanged. *)
Theorem deleteBySubject_fragments (d : AclDoc.t) (subjectId : string)
    (prev target : AclRule.t) :
  hasOwnProperty_intact (rules d) →
  get subjectId (rules d) = Some prev →
  (length (AclRule.subtract prev target) = 2 →
   (Number (match_digits subjectId).2 + N.of_nat (length (rules d)) ≤ MAX_SAFE)%N) →
  ∃ o',
    deleteBySubject subjectId (Some target) d =
      (Ok (), AclDoc.mk (defaultAccessTo d) o' (otherQuads d)) ∧
    (∀ k, k ≠ subjectId → k ∈ keys (rules d) → get k o' = get k (rules d)) ∧
    match AclRule.subtract prev target with
    | [] => o' = remove subjectId (rules d) ∧ get subjectId o' = None
    | [f] =>
        o' = set subjectId f (rules d) ∧
        keys o' = keys (rules d) ∧ get subjectId o' = Some f
    | [f1; f2] =>
        let rest := remove subjectId (rules d) in
        let stem := (match_digits subjectId).1 in
        let start := Number (match_digits subjectId).2 in
        ∃ id1 id2,
          generated_id rest stem start id1 ∧
          generated_id (set id1 f1 rest) stem start id2 ∧
          o' = set id2 f2 (set id1 f1 rest) ∧
          get id1 o' = Some f1 ∧ get id2 o' = Some f2
    | _ => False
    end.
Proof.
  intros Hint Hget Hsafe. destruct d as [dflt o oq].
  cbn [rules defaultAccessTo otherQuads] in *.
  pose proof (subtract_length prev target) as Hlen.
  assert (subjectId ∈ keys o) as Hin by (apply get_is_Some; by eexists).
  destruct (AclRule.subtract prev target) as [|f1 [|f2 [|f3 l]]] eqn:E.
  - eexists. split_and!.
    + rewrite (deleteBySubject_own _ _ _ _ prev), E by done. reflexivity.
    + intros k Hk _. by apply get_remove_ne.
    + done.
    + apply get_remove_eq.
  - eexists. split_and!.
    + rewrite (deleteBySubject_own _ _ _ _ prev), E by done. reflexivity.
    + intros k Hk _. by apply get_set_ne.
    + done.
    + by apply keys_set_in.
    + by apply get_set_eq_in.
  - destruct (deleteBySubject_split dflt oq o subjectId prev target f1 f2)
      as (id1 & id2 & Hid1 & Hid2 & Hrun); [done..|by apply Hsafe|].
    destruct (generated_id_not_special _ _ _ _ Hid1) as [_ Hp1].
    destruct (generated_id_not_special _ _ _ _ Hid2) as [_ Hp2].
    assert (id1 ∉ keys (remove subjectId o)) as Hnew1
      by (by destruct Hid1 as (? & _ & _ & _ & ? & _)).
    assert (id2 ∉ keys (set id1 f1 (remove subjectId o))) as Hnew2
      by (by destruct Hid2 as (? & _ & _ & _ & ? & _)).
    assert (id1 ≠ id2) as Hne.
    { intros <-. apply Hnew2, get_is_Some. rewrite get_set_eq by done. by eexists. }
    eexists. split_and!; [exact Hrun| |].
    + intros k Hk Hk'.
      assert (k ∈ keys (remove subjectId o)) as Hrest.
      { rewrite keys_remove. by apply list_elem_of_filter. }
      rewrite !get_set_ne; [by apply get_remove_ne| |].
      * intros ->. done.
      * intros ->. apply Hnew2, get_is_Some.
        rewrite get_set_ne by (by intros ->). by apply get_is_Some.
    + exists id1, id2. split_and!; [done..| |by apply get_set_eq].
      rewrite get_set_ne by done. by apply get_set_eq.
  - simpl in Hlen. lia.
Qed.

(** C8, as amended.  On a store that holds no rule under
    ["hasOwnProperty"], the generator splits the base into a stem that does
    not end in a digit and its trailing digits, and returns the stem followed
    by the smallest number, counted from [Number] of the digits (0 when there
    are none), that gives an id not yet a key; the document is unchanged and
    an absent base stands for ['new-acl-rule-1']. *)
Theorem _getNewSubjectId_fresh (d : AclDoc.t) (base : string) :
  hasOwnProperty_intact (rules d) →
  (Number (match_digits base).2 + N.of_nat (length (rules d)) ≤ MAX_SAFE)%N →
  base = (match_digits base).1 +:+ (match_digits base).2 ∧
  all_digits (match_digits base).2 = true ∧
  ends_with_digit (match_digits base).1 = false ∧
  Number "" = 0%N ∧
  _getNewSubjectId None = _getNewSubjectId (Some "new-acl-rule-1") ∧
  ∃ id, _getNewSubjectId (Some base) d = (Ok id, d) ∧
        generated_id (rules d) (match_digits base).1 (Number (match_digits base).2) id.
Proof.
  intros Hint Hsafe. destruct (match_digits_spec base) as (? & ? & ?).
  split_and!; [done..|]. by apply _getNewSubjectId_run.
Qed.

Lemma foldl_union `{Countable A} (x : gset A) (xs : list (gset A)) :
  foldl (∪) x xs = x ∪ ⋃ xs.
Proof.
  revert x. induction xs as [|y xs IH]; intros x; simpl.
  - by rewrite (right_id_L ∅ (∪)).
  - by rewrite IH, (assoc_L (∪)).
Qed.

(** C6.  [getPermissionsFor] throws on the empty reduction exactly when no
    stored rule's agents include the queried ones, and otherwise returns the
    union of the permissions of the rules that do; [getAgentsWith] likewise
    with the roles of permissions and agents exchanged. *)
Theorem aggregate_queries (d : AclDoc.t) (agents : Agents.t)
    (permissions : Permissions.t) :
  let for_agents := filter (λ r, agents ⊆ AclRule.agents r) (values (rules d)) in
  let with_permissions :=
    filter (λ r, permissions ⊆ AclRule.permissions r) (values (rules d)) in
  (getPermissionsFor agents d).1 =
    match for_agents with
    | [] => Throw EmptyReduction
    | _ => Ok (⋃ (AclRule.permissions <$> for_agents))
    end ∧
  (getAgentsWith permissions d).1 =
    match with_permissions with
    | [] => Throw EmptyReduction
    | _ => Ok (⋃ (AclRule.agents <$> with_permissions))
    end.
Proof.
  intros for_agents with_permissions.
  unfold getPermissionsFor, getAgentsWith, bind, read. simpl. split.
  - rewrite (list_filter_iff _ (λ r, agents ⊆ AclRule.agents r)).
    2:{ intros r. unfold Agents.includes. by rewrite bool_decide_eq_true. }
    fold for_agents. destruct for_agents as [|r rs]; [done|].
    simpl. f_equal. apply foldl_union.
  - rewrite (list_filter_iff _ (λ r, permissions ⊆ AclRule.permissions r)).
    2:{ intros r. unfold Permissions.includes. by rewrite bool_decide_eq_true. }
    fold with_permissions. destruct with_permissions as [|r rs]; [done|].
    simpl. f_equal. apply foldl_union.
Qed.

(** C4.  The scenario: a document whose only rule, under ["s1"], grants
    read and write to A and B.  [hasRule(read, A)] is true; after
    [deleteRule(read, A)] it is false, while [hasRule(write, A)] and
    [hasRule({read, write}, B)] are true. *)
Theorem delete_scenario (defaultAccessTo : string) :
  defaultAccessTo ≠ "" →
  let d1 := scenario_doc defaultAccessTo in
  let d2 := (deleteRule read_A d1).2 in
  keys (rules d1) = ["s1"] ∧
  (hasRule read_A d1).1 = Ok true ∧
  (deleteRule read_A d1).1 = Ok () ∧
  (hasRule read_A d2).1 = Ok false ∧
  (hasRule write_A d2).1 = Ok true ∧
  (hasRule all_B d2).1 = Ok true.
Proof.
  intros Hd. destruct defaultAccessTo as [|c s]; [done|].
  cbv zeta. split_and!; vm_compute; reflexivity.
Qed.

(** C5: the code at the failing input.  [equals] compares the quads, the
    permissions, the agents and the two default flags, and nothing else: two
    rules for different resources are equal to it. *)
Theorem equals_ignores_accessTo :
  AclRule.equals read_A_on_resource read_A_on_other = true ∧
  AclRule.accessTo read_A_on_resource ≠ AclRule.accessTo read_A_on_other.
Proof. split; [by vm_compute|discriminate]. Qed.

End claims.

(** ** Where the claims as worded fail *)

Section counterexamples.
Import AclDoc.

(** C1: the code at the failing input, the example of the documentation of
    [subtract], whose two rules are built without [accessTo].  The
    documentation gives two fragments; the code returns none, since a rule
    without target counts as having no effect, so the pair (write, web) of
    the difference lies in no fragment. *)
Lemma subtract_drops_untargeted :
  AclRule.accessTo first_rule = AclRule.accessTo second_rule ∧
  AclRule.subtract first_rule second_rule = [] ∧
  ¬ exact_difference first_rule second_rule (AclRule.subtract first_rule second_rule).
Proof.
  split_and!; [done|by vm_compute|].
  intros [_ H]. destruct (H Permissions.WRITE (Agents.WebId "web")) as [H1 _].
  assert (count_covering Permissions.WRITE (Agents.WebId "web")
            (AclRule.subtract first_rule second_rule) = 0) as H0 by (by vm_compute).
  rewrite H1 in H0; [done| |].
  - unfold covers, first_rule; simpl. set_solver.
  - unfold covers, second_rule; simpl. set_solver.
Qed.

(** C2 as worded fails for a rule with foreign quads: both pieces are kept. *)
Lemma subtract_self_with_quads :
  AclRule.otherQuads rule_with_quad ≠ [] ∧
  length (AclRule.subtract rule_with_quad rule_with_quad) = 2.
Proof. split; [discriminate|by vm_compute]. Qed.

(** C3 as worded fails on a document without default target: the request is
    covered, yet [hasRule(P, Ag)] throws instead of returning [true]. *)
Lemma hasRule_without_default :
  ({[Permissions.READ]} : Permissions.t) ≠ ∅ ∧ ({[webA]} : Agents.t) ≠ ∅ ∧
  covered (values (rules doc_without_default)) {[Permissions.READ]} {[webA]} ∧
  (hasRule read_A doc_without_default).1 = Throw MissingAccessTo ∧
  (hasRule read_A doc_without_default).1 ≠ Ok true.
Proof.
  split_and!; [set_solver|set_solver| |by vm_compute|by vm_compute].
  intros p a Hp Ha. exists read_A_on_resource. split; [left|].
  unfold covers, read_A_on_resource; simpl. set_solver.
Qed.

(** C7 as worded fails when the subject id ends in a number: the first of the
    two fragments is stored under ["s1"] again, the id just removed. *)
Lemma deleteBySubject_reuses_subject :
  let d := scenario_doc resource in
  let target := read_A_on_resource in
  ∃ prev,
    get "s1" (rules d) = Some prev ∧
    length (AclRule.subtract prev target) = 2 ∧
    keys (rules (deleteBySubject "s1" (Some target) d).2) = ["s1"; "s2"] ∧
    ¬ moved_to_new_ids d (deleteBySubject "s1" (Some target) d).2 "s1"
        (AclRule.subtract prev target).
Proof.
  cbv zeta. eexists. split_and!; [by vm_compute..|].
  intros [Hgone _]. by vm_compute in Hgone.
Qed.

(** C8 as worded fails for a base without trailing digits: the count starts
    at 0, not at 1. *)
Lemma fresh_id_counts_from_zero :
  match_digits "owner" = ("owner", "") ∧
  (_getNewSubjectId (Some "owner") (AclDoc.new None)).1 = Ok "owner0" ∧
  ¬ generated_id (rules (AclDoc.new None)) "owner" (claimed_start "") "owner0".
Proof.
  split_and!; [by vm_compute..|].
  intros (i & Hid & Hle & _).
  change "owner0" with ("owner" +:+ pretty 0%N) in Hid.
  apply candidate_inj in Hid. subst i. by vm_compute in Hle.
Qed.

End counterexamples.

(** ** The theorems at concrete inputs *)

Section witnesses.
Import AclDoc.

Lemma subtract_exact_witness :
  (AclRule.accessTo first_rule_on_resource ≠ [] ∨
   AclRule.otherQuads first_rule_on_resource ≠ []) ∧
  exact_difference first_rule_on_resource second_rule
    (AclRule.subtract first_rule_on_resource second_rule).
Proof.
  assert (AclRule.accessTo first_rule_on_resource ≠ [] ∨
          AclRule.otherQuads first_rule_on_resource ≠ []) as H
    by (left; discriminate).
  split; [exact H|]. exact (subtract_exact first_rule_on_resource second_rule H).
Defined.

Lemma subtract_self_witness :
  AclRule.otherQuads read_A_on_resource = [] ∧
  AclRule.subtract read_A_on_resource read_A_on_resource = [].
Proof.
  split; [reflexivity|]. apply (subtract_self read_A_on_resource). reflexivity.
Defined.

Lemma hasRule_covered_witness :
  has_default (scenario_doc resource) ∧
  ∃ b, hasRule read_A (scenario_doc resource) = (Ok b, scenario_doc resource) ∧
       (b = true ↔
        covered (values (rules (scenario_doc resource))) {[Permissions.READ]} {[webA]}).
Proof.
  assert (has_default (scenario_doc resource)) as Hd.
  { exists resource. split; [reflexivity|discriminate]. }
  split; [exact Hd|].
  apply (hasRule_covered (scenario_doc resource) {[Permissions.READ]} {[webA]} []).
  - apply non_empty_singleton_L.
  - apply non_empty_singleton_L.
  - right. exact Hd.
Defined.

Lemma delete_scenario_witness :
  keys (rules (scenario_doc resource)) = ["s1"] ∧
  (hasRule read_A (deleteRule read_A (scenario_doc resource)).2).1 = Ok false.
Proof.
  assert (resource ≠ "") as H by discriminate.
  pose proof (delete_scenario resource H) as Hs. cbv zeta in Hs.
  split; [exact (proj1 Hs)|exact (proj1 (proj2 (proj2 (proj2 Hs))))].
Defined.

Lemma deleteBySubject_fragments_witness :
  ∃ o',
    deleteBySubject "s1" (Some read_A_on_resource) (scenario_doc resource) =
      (Ok (), AclDoc.mk (Some resource) o' []) ∧
    get "s1" o' ≠ None.
Proof.
  assert (∃ prev, get "s1" (rules (scenario_doc resource)) = Some prev)
    as [prev Hprev] by (eexists; vm_compute; reflexivity).
  assert (hasOwnProperty_intact (rules (scenario_doc resource))) as Hint
    by (apply (bool_decide_unpack _); vm_compute; exact I).
  assert (Number (match_digits "s1").2 +
          N.of_nat (length (rules (scenario_doc resource))) ≤ MAX_SAFE)%N as Hsafe
    by (vm_compute; discriminate).
  destruct (deleteBySubject_fragments (scenario_doc resource) "s1" prev
              read_A_on_resource Hint Hprev (λ _, Hsafe)) as (o' & Hrun & _ & _).
  exists o'. split; [exact Hrun|].
  intros Hnone. vm_compute in Hrun. injection Hrun as <-. discriminate Hnone.
Defined.

Lemma _getNewSubjectId_fresh_witness :
  ∃ id, _getNewSubjectId (Some "s1") (scenario_doc resource) =
          (Ok id, scenario_doc resource) ∧
        generated_id (rules (scenario_doc resource)) "s" 1%N id.
Proof.
  assert (hasOwnProperty_intact (rules (scenario_doc resource))) as Hint
    by (apply (bool_decide_unpack _); vm_compute; exact I).
  assert (Number (match_digits "s1").2 +
          N.of_nat (length (rules (scenario_doc resource))) ≤ MAX_SAFE)%N as Hsafe
    by (vm_compute; discriminate).
  exact (proj2 (proj2 (proj2 (proj2 (proj2
    (_getNewSubjectId_fresh (scenario_doc resource) "s1" Hint Hsafe)))))).
Defined.

Lemma hasRule_ineffective_witness :
  hasRule (OfParts ∅ {[webA]} []) (scenario_doc resource) =
    (Ok true, scenario_doc resource) ∧
  hasRule (OfParts ∅ {[webA]} []) (AclDoc.new (Some resource)) =
    (Ok false, AclDoc.new (Some resource)).
Proof.
  split.
  - apply (hasRule_ineffective (scenario_doc resource) (OfParts ∅ {[webA]} [])
             (AclRule.mk ∅ {[webA]} [resource] [] None None));
      vm_compute; reflexivity.
  - apply (hasRule_ineffective (AclDoc.new (Some resource)) (OfParts ∅ {[webA]} [])
             (AclRule.mk ∅ {[webA]} [resource] [] None None));
      vm_compute; reflexivity.
Defined.

End witnesses.

(** ** Further properties of the rule algebra *)

Section algebra_laws.
Implicit Types (A B f r : AclRule.t) (p : Permissions.Permission) (a : Agents.Agent).

Lemma filter_all {X} (P : X → Prop) `{∀ x, Decision (P x)} (l : list X) :
  (∀ x, x ∈ l → P x) → filter P l = l.
Proof.
  induction l as [|x l IH]; intros Hall; [done|].
  rewrite filter_cons_True by (apply Hall; left).
  f_equal. apply IH. intros y Hy. apply Hall. by right.
Qed.

Lemma hasNoEffect_false r :
  AclRule.hasNoEffect r = false ↔
  AclRule.otherQuads r ≠ [] ∨
  (AclRule.permissions r ≠ ∅ ∧ AclRule.agents r ≠ ∅ ∧ AclRule.accessTo r ≠ []).
Proof.
  rewrite <-not_true_iff_false, hasNoEffect_true.
  destruct (decide (AclRule.otherQuads r = []));
    destruct (decide (AclRule.permissions r = ∅));
    destruct (decide (AclRule.agents r = ∅));
    destruct (decide (AclRule.accessTo r = [])); tauto.
Qed.

(** X1.  [common] is the intersection, of the rectangles as of the targets and of
    the foreign quads. *)
Theorem common_intersection A B :
  (∀ p a, covers (AclRule.common A B) p a ↔ covers A p a ∧ covers B p a) ∧
  (∀ x, x ∈ AclRule.accessTo (AclRule.common A B) ↔
        x ∈ AclRule.accessTo A ∧ x ∈ AclRule.accessTo B) ∧
  (∀ q, q ∈ AclRule.otherQuads (AclRule.common A B) ↔
        q ∈ AclRule.otherQuads A ∧ q ∈ AclRule.otherQuads B).
Proof.
  unfold AclRule.common, AclRule.new; simpl. split_and!.
  - intros p a. unfold covers, Permissions.common, Agents.common; simpl. set_solver.
  - intros x. rewrite list_elem_of_filter. tauto.
  - intros q. rewrite list_elem_of_filter, Exists_exists. split.
    + intros [(q' & Hq' & ->) Hq]. done.
    + intros [Hq Hq']. split; [|done]. by exists q.
Qed.

(** X2.  The common part of a rule with itself is the rule. *)
Theorem common_idempotent A : AclRule.common A A = A.
Proof.
  destruct A as [P Ag acc quads dflt dfn].
  unfold AclRule.common, AclRule.new, Permissions.common, Agents.common; simpl.
  rewrite !decide_True by done.
  rewrite (filter_all (λ val, val ∈ acc)) by done.
  rewrite (filter_all (λ quad, Exists (λ otherQuad, quad = otherQuad) quads)).
  2:{ intros q Hq. apply Exists_exists. by exists q. }
  f_equal; set_solver.
Qed.

(** X3.  A pair of [A] lies either in the common part with [B] or in exactly one
    fragment of the difference, never in both. *)
Theorem subtract_common_partition A B p a :
  AclRule.accessTo A ≠ [] ∨ AclRule.otherQuads A ≠ [] →
  covers A p a →
  (covers (AclRule.common A B) p a ∧
   count_covering p a (AclRule.subtract A B) = 0) ∨
  (¬ covers (AclRule.common A B) p a ∧
   count_covering p a (AclRule.subtract A B) = 1).
Proof.
  intros HA Hc. rewrite (count_covering_subtract A B p a HA), count_covering_pieces.
  assert (covers (AclRule.common A B) p a ↔ covers A p a ∧ covers B p a) as ->.
  { unfold AclRule.common, AclRule.new, covers, Permissions.common, Agents.common;
      simpl. set_solver. }
  destruct (decide (covers B p a)).
  - left. rewrite decide_False by tauto. done.
  - right. rewrite decide_True by tauto. tauto.
Qed.

(** X4.  [subtract] returns no fragment exactly for a rule without foreign quads
    that has no effect or whose rectangle lies within the subtrahend's. *)
Theorem subtract_nil_iff A B :
  AclRule.subtract A B = [] ↔
  AclRule.otherQuads A = [] ∧
  (AclRule.hasNoEffect A = true ∨
   (AclRule.permissions A ⊆ AclRule.permissions B ∧
    AclRule.agents A ⊆ AclRule.agents B)).
Proof.
  rewrite subtract_pieces.
  assert (filter (λ rule, negb (AclRule.hasNoEffect rule)) [piece1 A B; piece2 A B] = [] ↔
          AclRule.hasNoEffect (piece1 A B) = true ∧
          AclRule.hasNoEffect (piece2 A B) = true) as ->.
  { destruct (AclRule.hasNoEffect (piece1 A B)) eqn:E1;
      destruct (AclRule.hasNoEffect (piece2 A B)) eqn:E2.
    - rewrite !filter_cons_False by (rewrite ?E1, ?E2; simpl; tauto). done.
    - rewrite filter_cons_False by (rewrite E1; simpl; tauto).
      rewrite filter_cons_True by (by rewrite E2). split; [done|]. by intros [_ ?].
    - rewrite filter_cons_True by (by rewrite E1). split; [done|]. by intros [? _].
    - rewrite filter_cons_True by (by rewrite E1). split; [done|]. by intros [? _]. }
  rewrite !hasNoEffect_true.
  unfold piece1, piece2, AclRule.new, Agents.subtract, Agents.common,
    Permissions.subtract; simpl.
  destruct (decide (AclRule.accessTo A = [])) as [Hacc|Hacc]; [tauto|].
  split.
  - intros [[Hq H1] [_ H2]]. split; [done|].
    destruct (decide (AclRule.permissions A = ∅)) as [|HP]; [tauto|].
    destruct (decide (AclRule.agents A = ∅)) as [|HAg]; [tauto|].
    right. destruct H1 as [?|[H1|?]]; [done| |done].
    assert (AclRule.agents A ⊆ AclRule.agents B) as Hsub by set_solver.
    split; [|done]. destruct H2 as [?|[H2|?]]; [set_solver| |done].
    set_solver.
  - intros [Hq [[_ [E|[E|E]]]|[HP HAg]]].
    + split; (split; [done|]); [auto|left; set_solver].
    + split; (split; [done|]); right; left; set_solver.
    + done.
    + split; (split; [done|]); [right; left; set_solver|left; set_solver].
Qed.

(** X5.  Subtracting a rule about other agents leaves an effective rule as it
    is. *)
Theorem subtract_disjoint_agents A B :
  AclRule.otherQuads A = [] → AclRule.hasNoEffect A = false →
  AclRule.agents A ## AclRule.agents B →
  AclRule.subtract A B = [A].
Proof.
  intros Hq Heff Hdisj. rewrite subtract_pieces.
  assert (piece1 A B = A) as E1.
  { destruct A as [P Ag acc quads dflt dfn].
    unfold piece1, AclRule.new, Agents.subtract; simpl in *. f_equal. set_solver. }
  assert (AclRule.hasNoEffect (piece2 A B) = true) as E2.
  { apply hasNoEffect_true. split; [done|]. right; left.
    unfold piece2, Agents.common; simpl. set_solver. }
  rewrite E1. rewrite filter_cons_True by (by rewrite Heff).
  rewrite filter_cons_False by (rewrite E2; simpl; tauto). done.
Qed.

(** X6.  Subtracting the same rule once more changes nothing: each fragment
    subtracts to itself. *)
Theorem subtract_fragment_stable A B f :
  AclRule.otherQuads A = [] → f ∈ AclRule.subtract A B →
  AclRule.subtract f B = [f].
Proof.
  intros Hq (Hf & Heff & Hacc & Hquads)%elem_of_subtract.
  rewrite Hq in Hquads.
  assert (piece1 f B = f ∧ AclRule.hasNoEffect (piece2 f B) = true ∨
          AclRule.hasNoEffect (piece1 f B) = true ∧ piece2 f B = f) as Hcase.
  { destruct Hf as [-> | ->]; [left|right].
    - split.
      + unfold piece1, AclRule.new, Agents.subtract; simpl. f_equal. set_solver.
      + apply hasNoEffect_true. split; [done|]. right; left.
        unfold piece2, piece1, Agents.common, Agents.subtract; simpl. set_solver.
    - split.
      + apply hasNoEffect_true. split; [done|]. right; left.
        unfold piece1, piece2, Agents.common, Agents.subtract; simpl. set_solver.
      + unfold piece2, AclRule.new, Agents.common, Permissions.subtract; simpl.
        f_equal; set_solver. }
  rewrite subtract_pieces.
  destruct Hcase as [[E1 E2]|[E1 E2]].
  - rewrite E1. rewrite filter_cons_True by (by rewrite Heff).
    rewrite filter_cons_False by (rewrite E2; simpl; tauto). done.
  - rewrite E2. rewrite filter_cons_False by (rewrite E1; simpl; tauto).
    rewrite filter_cons_True by (by rewrite Heff). done.
Qed.

(** X7.  Every fragment is effective, lies within the minuend and inherits its
    targets, quads and default flags; there are at most two. *)
Theorem subtract_inherits A B f :
  f ∈ AclRule.subtract A B →
  length (AclRule.subtract A B) ≤ 2 ∧
  AclRule.hasNoEffect f = false ∧
  AclRule.permissions f ⊆ AclRule.permissions A ∧
  AclRule.agents f ⊆ AclRule.agents A ∧
  AclRule.accessTo f = AclRule.accessTo A ∧
  AclRule.otherQuads f = AclRule.otherQuads A ∧
  AclRule.default_ f = AclRule.default_ A ∧
  AclRule.defaultForNew f = AclRule.defaultForNew A.
Proof.
  intros (Hf & Heff & _)%elem_of_subtract.
  split; [apply subtract_length|]. split; [done|].
  destruct Hf as [-> | ->];
    unfold piece1, piece2, AclRule.new, Agents.subtract, Agents.common,
      Permissions.subtract; simpl; split_and!; try done; set_solver.
Qed.

(** X8.  [equals] is an equivalence, and a clone equals its original. *)
Theorem equals_equivalence A B r :
  AclRule.equals A A = true ∧
  AclRule.equals (AclRule.clone A) A = true ∧
  (AclRule.equals A B = true → AclRule.equals B A = true) ∧
  (AclRule.equals A B = true → AclRule.equals B r = true →
   AclRule.equals A r = true).
Proof.
  rewrite !equals_true. simpl. split_and!; try done.
  - intros (-> & -> & -> & -> & ->). done.
  - intros (-> & -> & -> & -> & ->). done.
Qed.

(** X9.  For a rule with a target and no foreign quads, having no effect means
    granting no pair. *)
Theorem hasNoEffect_no_pair r :
  AclRule.otherQuads r = [] → AclRule.accessTo r ≠ [] →
  AclRule.hasNoEffect r = true ↔ ∀ p a, ¬ covers r p a.
Proof.
  intros Hq Hacc. split.
  - intros Heff p a. by apply hasNoEffect_covers; [left|].
  - intros Hnone. destruct (AclRule.hasNoEffect r) eqn:E; [done|].
    destruct (effective_inhabited r Hq E) as (p & a & Hc). by destruct (Hnone p a).
Qed.

End algebra_laws.

(** ** Further properties of the store *)

Section store_laws.
Import AclDoc.
Implicit Types (o pre es : Rules) (k : string) (v r f q : AclRule.t) (d : AclDoc.t).

Lemma keys_app o1 o2 : keys (o1 ++ o2) = keys o1 ++ keys o2.
Proof. unfold keys. apply fmap_app. Qed.

Lemma remove_notin k o : k ∉ keys o → remove k o = o.
Proof.
  intros Hk. unfold remove. apply filter_all.
  intros [k' v'] Hin Heq. simpl in Heq. subst k'. apply Hk. unfold keys.
  apply list_elem_of_fmap. by exists (k, v').
Qed.

Lemma remove_app k o1 o2 : remove k (o1 ++ o2) = remove k o1 ++ remove k o2.
Proof. unfold remove. apply filter_app. Qed.

Lemma remove_middle k v pre es :
  k ∉ keys pre → k ∉ keys es → remove k (pre ++ (k, v) :: es) = pre ++ es.
Proof.
  intros Hpre Hes. rewrite remove_app, (remove_notin k pre) by done. f_equal.
  unfold remove. rewrite filter_cons_False by (simpl; tauto).
  by apply remove_notin.
Qed.

Lemma get_middle k v pre es : k ∉ keys pre → get k (pre ++ (k, v) :: es) = Some v.
Proof.
  intros Hpre%get_None. rewrite get_app, Hpre. simpl. by rewrite decide_True.
Qed.

Lemma set_middle k v v' pre es :
  k ∉ keys pre → set k v' (pre ++ (k, v) :: es) = pre ++ (k, v') :: es.
Proof.
  intros Hpre. rewrite set_in.
  2:{ rewrite keys_app, elem_of_app. right. left. }
  revert Hpre. unfold keys. induction pre as [|[k0 v0] pre IH]; simpl.
  - intros _. by rewrite decide_True.
  - rewrite not_elem_of_cons. intros [Hne Hpre].
    rewrite decide_False by done. by rewrite IH.
Qed.

Lemma NoDup_keys_middle k v pre es :
  NoDup (keys (pre ++ (k, v) :: es)) →
  (k ∉ keys pre) ∧ (k ∉ keys es) ∧ NoDup (keys (pre ++ es)).
Proof.
  rewrite !keys_app. unfold keys at 2. rewrite fmap_cons. simpl.
  fold (keys es). rewrite !NoDup_app, NoDup_cons.
  intros (Hpre & Hdisj & Hk & Hes). split_and!; [|done|done| |done].
  - intros Hin. apply (Hdisj _ Hin). left.
  - intros x Hx Hx'. apply (Hdisj _ Hx). by right.
Qed.

Lemma NoDup_keys_remove k o : NoDup (keys o) → NoDup (keys (remove k o)).
Proof. rewrite keys_remove. apply NoDup_filter. Qed.

Lemma NoDup_keys_set k v o : NoDup (keys o) → NoDup (keys (set k v o)).
Proof.
  intros Hnd. destruct (decide (k ∈ keys o)) as [Hin|Hnin].
  - by rewrite keys_set_in.
  - destruct (decide (k = "__proto__")) as [->|Hk]; [by rewrite set_proto|].
    unfold keys. rewrite (set_Permutation k v o), fmap_app by done.
    apply NoDup_app. split_and!; [done| |apply NoDup_singleton].
    intros x Hx ->%list_elem_of_singleton. done.
Qed.

Lemma elem_get k v o : NoDup (keys o) → (k, v) ∈ o → get k o = Some v.
Proof.
  unfold keys. induction o as [|[k0 v0] o IH]; simpl.
  - by intros _ ?%elem_of_nil.
  - rewrite NoDup_cons. intros [Hk0 Hnd] [[= -> ->]|Hin]%elem_of_cons.
    + by rewrite decide_True.
    + rewrite decide_False; [by apply IH|].
      intros ->. apply Hk0. apply list_elem_of_fmap. by exists (k, v).
Qed.

Lemma values_get o f :
  NoDup (keys o) → f ∈ values o ↔ ∃ k, get k o = Some f.
Proof.
  intros Hnd. unfold values. rewrite list_elem_of_fmap. split.
  - intros ([k v] & -> & Hin). exists k. by apply elem_get.
  - intros [k Hk%get_Some_elem]. by exists (k, f).
Qed.

Lemma NoDup_keys_filter (P : string * AclRule.t → Prop) `{∀ x, Decision (P x)} o :
  NoDup (keys o) → NoDup (keys (filter P o)).
Proof.
  unfold keys. induction o as [|[k0 v0] o IH]; [done|].
  rewrite fmap_cons, NoDup_cons. simpl. intros [Hk Hnd].
  destruct (decide (P (k0, v0))).
  - rewrite filter_cons_True by done. rewrite fmap_cons, NoDup_cons. simpl.
    split; [|by apply IH]. intros ([k' v'] & -> & [_ Hin]%list_elem_of_filter)%list_elem_of_fmap.
    apply Hk. apply list_elem_of_fmap. by exists (k', v').
  - rewrite filter_cons_False by done. by apply IH.
Qed.

(** *** [getMinifiedRules] *)

Lemma getMinifiedRules_loop dflt oq es pre :
  NoDup (keys (pre ++ es)) →
  for_of es (λ '(subjectId, rule),
      if AclRule.hasNoEffect rule then write_rules (remove subjectId) else ret ())
    (AclDoc.mk dflt (pre ++ es) oq) =
  (Ok (), AclDoc.mk dflt
            (pre ++ filter (λ kv, AclRule.hasNoEffect kv.2 = false) es) oq).
Proof.
  revert pre. induction es as [|[k r] es IH]; intros pre Hnd.
  { done. }
  destruct (NoDup_keys_middle _ _ _ _ Hnd) as (Hpre & Hes & Hnd').
  cbn [for_of]. unfold bind at 1.
  destruct (AclRule.hasNoEffect r) eqn:E.
  - unfold write_rules at 1. cbn [rules defaultAccessTo otherQuads].
    rewrite remove_middle by done. rewrite IH by done.
    by rewrite filter_cons_False by (simpl; congruence).
  - unfold ret at 1.
    replace (pre ++ (k, r) :: es) with ((pre ++ [(k, r)]) ++ es)
      by (by rewrite <-app_assoc).
    rewrite IH by (by rewrite <-app_assoc).
    rewrite filter_cons_True by done. by rewrite <-app_assoc.
Qed.

Lemma getMinifiedRules_run d :
  unique_keys (rules d) →
  getMinifiedRules d =
  (Ok (filter (λ kv, AclRule.hasNoEffect kv.2 = false) (rules d)),
   AclDoc.mk (defaultAccessTo d)
     (filter (λ kv, AclRule.hasNoEffect kv.2 = false) (rules d)) (otherQuads d)).
Proof.
  intros Hnd. destruct d as [dflt o oq]. cbn [rules defaultAccessTo otherQuads] in *.
  pose proof (getMinifiedRules_loop dflt oq o [] Hnd) as Hloop.
  cbn [app] in Hloop.
  unfold getMinifiedRules, bind, read, entries. cbn [rules].
  by rewrite Hloop.
Qed.

(** X10.  [getMinifiedRules] never throws; it removes exactly the entries whose
    rule has no effect, keeps the others in their order, and returns the
    mapping it leaves. *)
Theorem getMinifiedRules_effective (d : AclDoc.t) :
  unique_keys (rules d) →
  ∃ o', getMinifiedRules d =
          (Ok o', AclDoc.mk (defaultAccessTo d) o' (otherQuads d)) ∧
        o' = filter (λ kv, AclRule.hasNoEffect kv.2 = false) (rules d) ∧
        (∀ k r, get k o' = Some r ↔
                get k (rules d) = Some r ∧ AclRule.hasNoEffect r = false).
Proof.
  intros Hnd. eexists. split; [by apply getMinifiedRules_run|]. split; [done|].
  intros k r. split.
  - intros [Heff Hin]%get_Some_elem%list_elem_of_filter. split; [|done].
    by apply elem_get.
  - intros [Hin%get_Some_elem Heff]. apply elem_get.
    + by apply NoDup_keys_filter.
    + by apply list_elem_of_filter.
Qed.

(** X11.  Minifying twice gives what minifying once gives. *)
Theorem getMinifiedRules_idempotent (d : AclDoc.t) :
  unique_keys (rules d) →
  getMinifiedRules (getMinifiedRules d).2 = getMinifiedRules d.
Proof.
  intros Hnd. rewrite (getMinifiedRules_run d Hnd). cbn [snd].
  rewrite getMinifiedRules_run; cbn [rules defaultAccessTo otherQuads].
  - rewrite filter_all; [done|]. by intros kv [? _]%list_elem_of_filter.
  - by apply NoDup_keys_filter.
Qed.

End store_laws.

(** *** [deletePermissions] *)

Section delete_permissions.
Import AclDoc.
Implicit Types (o pre es : Rules) (k : string) (r : AclRule.t) (P : Permissions.t).

(** Subtracting given permissions for a rule's own agents leaves the rule
    without these permissions, or nothing. *)
Lemma subtract_own_agents P r :
  AclRule.otherQuads r = [] →
  AclRule.subtract r (AclRule.new P (AclRule.agents r) [] AclRule.noOptions) =
  if AclRule.hasNoEffect (without_permissions P r) then []
  else [without_permissions P r].
Proof.
  intros Hq. rewrite subtract_pieces.
  set (toDelete := AclRule.new P (AclRule.agents r) [] AclRule.noOptions).
  assert (AclRule.hasNoEffect (piece1 r toDelete) = true) as E1.
  { apply hasNoEffect_true. split; [done|]. right; left.
    unfold piece1, toDelete, Agents.subtract; simpl. set_solver. }
  assert (piece2 r toDelete = without_permissions P r) as ->.
  { unfold piece2, toDelete, without_permissions, AclRule.new, Agents.common,
      Permissions.subtract; simpl. f_equal. set_solver. }
  rewrite filter_cons_False by (rewrite E1; simpl; tauto).
  destruct (AclRule.hasNoEffect (without_permissions P r)) eqn:E.
  - rewrite filter_cons_False by (rewrite E; simpl; tauto). done.
  - rewrite filter_cons_True by (by rewrite E). done.
Qed.

Lemma deletePermissions_loop P dflt oq es pre :
  hasOwnProperty_intact (pre ++ es) →
  NoDup (keys (pre ++ es)) → quad_free es →
  for_of es (λ '(subjectId, rule),
      let toDelete :=
        AclRule.new P (AclRule.agents rule) [] AclRule.noOptions in
      deleteBySubject subjectId (Some toDelete))
    (AclDoc.mk dflt (pre ++ es) oq) =
  (Ok (), AclDoc.mk dflt (pre ++ omap (strip_entry P) es) oq).
Proof.
  revert pre. induction es as [|[k r] es IH]; intros pre Hint Hnd Hq.
  { done. }
  destruct (NoDup_keys_middle _ _ _ _ Hnd) as (Hpre & Hes & Hnd').
  apply Forall_cons in Hq as [Hqr Hq].
  assert (hasOwnProperty_intact (pre ++ es)) as Hint'.
  { unfold hasOwnProperty_intact in *. rewrite keys_app, elem_of_app in *.
    unfold keys in Hint at 2. rewrite fmap_cons, elem_of_cons in Hint. tauto. }
  cbn [for_of omap list_omap]. unfold bind at 1. cbv zeta.
  rewrite (deleteBySubject_own _ _ _ _ r) by (by try apply get_middle).
  rewrite subtract_own_agents by done.
  unfold strip_entry at 1. cbn [fst snd].
  destruct (AclRule.hasNoEffect (without_permissions P r)) eqn:E.
  - unfold bind at 1, write_rules at 1. cbn [rules defaultAccessTo otherQuads for_of].
    unfold ret at 1. rewrite remove_middle by done. by apply IH.
  - unfold write_rules at 1. cbn [rules defaultAccessTo otherQuads].
    rewrite set_middle by done.
    replace (pre ++ (k, without_permissions P r) :: es)
      with ((pre ++ [(k, without_permissions P r)]) ++ es)
      by (by rewrite <-app_assoc).
    assert (keys ((pre ++ [(k, without_permissions P r)]) ++ es) =
            keys (pre ++ (k, r) :: es)) as Hkeys.
    { rewrite <-app_assoc. simpl. rewrite !keys_app. unfold keys.
      by rewrite !fmap_cons. }
    rewrite IH; [by rewrite <-app_assoc| | |done].
    + unfold hasOwnProperty_intact. by rewrite Hkeys.
    + by rewrite Hkeys.
Qed.

(** X12.  On a store without foreign quads, and with no rule under
    ["hasOwnProperty"], [deletePermissions] never throws and keeps every
    subject id in place: each rule loses the given permissions and keeps its
    agents and targets, and an entry left without permission is removed.  No
    permission of [P] stays granted. *)
Theorem deletePermissions_strips (d : AclDoc.t) (P : Permissions.t) :
  hasOwnProperty_intact (rules d) →
  unique_keys (rules d) → quad_free (rules d) →
  ∃ o', deletePermissions P d =
          (Ok (), AclDoc.mk (defaultAccessTo d) o' (otherQuads d)) ∧
        o' = omap (strip_entry P) (rules d) ∧
        (∀ k r', get k o' = Some r' →
           AclRule.permissions r' ## P ∧ AclRule.hasNoEffect r' = false ∧
           ∃ r, get k (rules d) = Some r ∧ r' = without_permissions P r).
Proof.
  intros Hint Hnd Hq. destruct d as [dflt o oq].
  cbn [rules defaultAccessTo otherQuads] in *.
  pose proof (deletePermissions_loop P dflt oq o [] Hint Hnd Hq) as Hloop.
  cbn [app] in Hloop.
  eexists. split_and!; [|reflexivity|].
  - unfold deletePermissions, bind, read, entries. cbn [rules]. exact Hloop.
  - intros k r' Hget%get_Some_elem.
    apply list_elem_of_omap in Hget as ([k0 r] & Hin & Hstrip).
    unfold strip_entry in Hstrip. simpl in Hstrip.
    destruct (AclRule.hasNoEffect (without_permissions P r)) eqn:E; [done|].
    injection Hstrip as -> <-. split_and!; [|done|].
    + unfold without_permissions; simpl. set_solver.
    + exists r. split; [|done]. by apply elem_get.
Qed.

End delete_permissions.

(** *** [deleteBySubject] and [deleteRule] *)

Section delete_rule.
Import AclDoc.
Implicit Types (o : Rules) (k : string) (r f q prev : AclRule.t) (d : AclDoc.t).

Lemma length_remove_le k o : length (remove k o) ≤ length o.
Proof. unfold remove. apply length_filter. Qed.

(** One step of [deleteRule]: what [deleteBySubject] makes of a store with
    unique subject ids. *)
Lemma deleteBySubject_step dflt oq o k prev q :
  hasOwnProperty_intact o →
  NoDup (keys o) → get k o = Some prev →
  (Number (match_digits k).2 + N.of_nat (length o) ≤ MAX_SAFE)%N →
  ∃ o',
    deleteBySubject k (Some q) (AclDoc.mk dflt o oq) = (Ok (), AclDoc.mk dflt o' oq) ∧
    hasOwnProperty_intact o' ∧
    NoDup (keys o') ∧ length o' ≤ S (length o) ∧
    (∀ k', k' ≠ k → k' ∈ keys o → get k' o' = get k' o) ∧
    (∀ k' v, get k' o' = Some v →
       (k' ≠ k ∧ get k' o = Some v) ∨
       (v ∈ AclRule.subtract prev q ∧ k' ∉ keys (remove k o))) ∧
    (∀ f, f ∈ AclRule.subtract prev q →
       ∃ k', get k' o' = Some f ∧ k' ∉ keys (remove k o)).
Proof.
  intros Hint Hnd Hget Hsafe.
  pose proof (subtract_length prev q) as Hlen.
  pose proof (length_remove_lt _ _ _ Hget) as Hrem.
  pose proof (not_elem_of_keys_remove k o) as Hk.
  assert (k ∈ keys o) as Hin by (apply get_is_Some; by eexists).
  assert (k ≠ "hasOwnProperty") as Hkh by (by intros ->).
  destruct (AclRule.subtract prev q) as [|f1 [|f2 [|f3 l]]] eqn:E.
  - exists (remove k o). split_and!.
    + by rewrite (deleteBySubject_own _ _ _ _ prev), E.
    + by apply intact_remove.
    + by apply NoDup_keys_remove.
    + lia.
    + intros k' Hne _. by apply get_remove_ne.
    + intros k' v Hv. left. destruct (decide (k' = k)) as [->|Hne].
      * by rewrite get_remove_eq in Hv.
      * split; [done|]. by rewrite get_remove_ne in Hv.
    + by intros f ?%elem_of_nil.
  - exists (set k f1 o). split_and!.
    + by rewrite (deleteBySubject_own _ _ _ _ prev), E.
    + by apply intact_set.
    + by apply NoDup_keys_set.
    + apply length_set.
    + intros k' Hne _. by apply get_set_ne.
    + intros k' v Hv. destruct (decide (k' = k)) as [->|Hne].
      * right. rewrite get_set_eq_in in Hv by done. injection Hv as <-.
        split; [left|done].
      * left. split; [done|]. by rewrite get_set_ne in Hv.
    + intros f ->%list_elem_of_singleton. exists k.
      split; [by apply get_set_eq_in|done].
  - destruct (deleteBySubject_split dflt oq o k prev q f1 f2)
      as (id1 & id2 & Hid1 & Hid2 & Hrun); [done..|].
    set (rest := remove k o) in *.
    destruct (generated_id_not_special _ _ _ _ Hid1) as [Hh1 Hp1].
    destruct (generated_id_not_special _ _ _ _ Hid2) as [Hh2 Hp2].
    assert (id1 ∉ keys rest) as Hnew1
      by (by destruct Hid1 as (? & _ & _ & _ & ? & _)).
    assert (id2 ∉ keys (set id1 f1 rest)) as Hnew2
      by (by destruct Hid2 as (? & _ & _ & _ & ? & _)).
    assert (id1 ≠ id2) as Hne12.
    { intros <-. apply Hnew2, get_is_Some. rewrite get_set_eq by done. by eexists. }
    assert (id2 ∉ keys rest) as Hnew2'.
    { intros Hx. apply Hnew2, get_is_Some. rewrite get_set_ne by done.
      by apply get_is_Some. }
    exists (set id2 f2 (set id1 f1 rest)). split_and!.
    + exact Hrun.
    + apply intact_set; [apply intact_set|]; [by apply intact_remove|done..].
    + by apply NoDup_keys_set, NoDup_keys_set, NoDup_keys_remove.
    + pose proof (length_set id2 f2 (set id1 f1 rest)).
      pose proof (length_set id1 f1 rest). lia.
    + intros k' Hne Hk'.
      assert (k' ∈ keys rest) as Hrest.
      { unfold rest. rewrite keys_remove. by apply list_elem_of_filter. }
      rewrite !get_set_ne by (by intros ->). by apply get_remove_ne.
    + intros k' v Hv.
      destruct (decide (k' = id2)) as [->|Hk2].
      { rewrite get_set_eq in Hv by done. injection Hv as <-.
        right. split; [right; left|done]. }
      rewrite get_set_ne in Hv by done.
      destruct (decide (k' = id1)) as [->|Hk1].
      { rewrite get_set_eq in Hv by done. injection Hv as <-.
        right. split; [left|done]. }
      rewrite get_set_ne in Hv by done. left.
      destruct (decide (k' = k)) as [->|Hne].
      * unfold rest in Hv. by rewrite get_remove_eq in Hv.
      * split; [done|]. unfold rest in Hv. by rewrite get_remove_ne in Hv.
    + intros f [->|[->|?%elem_of_nil]%elem_of_cons]%elem_of_cons; [| |done].
      * exists id1. split; [|done]. rewrite get_set_ne by done. by apply get_set_eq.
      * exists id2. split; [|done]. by apply get_set_eq.
  - simpl in Hlen. lia.
Qed.

(** The loop of [deleteRule] over a list of distinct stored subjects: the
    rules under these subjects are replaced by their fragments, the others
    stay. *)
Lemma deleteRule_loop dflt oq q ks o :
  hasOwnProperty_intact o →
  NoDup ks → NoDup (keys o) → (∀ k, k ∈ ks → k ∈ keys o) →
  (∀ k, k ∈ ks →
     (Number (match_digits k).2 + N.of_nat (length o + length ks) ≤ MAX_SAFE)%N) →
  ∃ o',
    for_of ks (λ subjectId, deleteBySubject subjectId (Some q)) (AclDoc.mk dflt o oq) =
      (Ok (), AclDoc.mk dflt o' oq) ∧
    NoDup (keys o') ∧
    ∀ f, (∃ k', get k' o' = Some f) ↔
         ∃ k r, get k o = Some r ∧
                ((k ∈ ks ∧ f ∈ AclRule.subtract r q) ∨ ((k ∉ ks) ∧ f = r)).
Proof.
  revert o. induction ks as [|k ks IH]; intros o Hint Hks Hnd Hin Hsafe.
  { exists o. split_and!; [done..|]. intros f. split.
    - intros [k' Hk']. exists k', f. split; [done|]. right.
      split; [apply not_elem_of_nil|done].
    - intros (k & r & Hr & [[?%elem_of_nil _]|[_ ->]]); [done|eauto]. }
  apply NoDup_cons in Hks as [Hk Hks].
  assert (k ∈ keys o) as Hko by (apply Hin; left).
  apply get_is_Some in Hko as [prev Hprev].
  destruct (deleteBySubject_step dflt oq o k prev q Hint Hnd Hprev)
    as (o1 & Hrun & Hint1 & Hnd1 & Hlen1 & Hother & Hfrom & Hfrag).
  { specialize (Hsafe k ltac:(left)). simpl in Hsafe. lia. }
  assert (∀ k', k' ∈ ks → k' ≠ k ∧ k' ∈ keys o) as Hks'.
  { intros k' Hk'. split; [by intros ->|]. apply Hin. by right. }
  assert (∀ k', k' ∈ ks → k' ∈ keys (remove k o)) as Hrest.
  { intros k' [Hne Hk']%Hks'. rewrite keys_remove. by apply list_elem_of_filter. }
  destruct (IH o1) as (o' & Hloop & Hnd' & Hchar); [done|done|done| | |].
  { intros k' [Hne Hk']%Hks'. apply get_is_Some.
    rewrite Hother by done. by apply get_is_Some. }
  { intros k' Hk'. specialize (Hsafe k' ltac:(by right)). simpl in Hsafe. lia. }
  exists o'. split_and!; [|done|].
  { cbn [for_of]. unfold bind at 1. rewrite Hrun. exact Hloop. }
  intros f. rewrite Hchar. split.
  - intros (k' & r' & Hr' & Hcase).
    destruct (Hfrom k' r' Hr') as [[Hne Hold]|[Hfr Hnew]].
    + exists k', r'. split; [done|].
      destruct Hcase as [[Hk' Hf]|[Hk' ->]].
      * left. split; [by right|done].
      * right. split; [|done]. by intros [->|?]%elem_of_cons.
    + destruct Hcase as [[Hk' _]|[_ ->]].
      * by apply Hrest in Hk'.
      * exists k, prev. split; [done|]. left. split; [left|done].
  - intros (k0 & r & Hr & Hcase).
    destruct (decide (k0 = k)) as [->|Hne].
    + rewrite Hprev in Hr. injection Hr as <-.
      destruct Hcase as [[_ Hf]|[Hk0 _]]; [|by destruct Hk0; left].
      destruct (Hfrag f Hf) as (k' & Hk' & Hnew).
      exists k', f. split; [done|]. right. split; [|done].
      intros Hin'. by apply Hrest in Hin'.
    + assert (get k0 o1 = Some r) as Hr1.
      { rewrite Hother; [done..|]. apply get_is_Some. by eexists. }
      exists k0, r. split; [done|].
      destruct Hcase as [[[?|Hk0]%elem_of_cons Hf]|[Hk0 ->]]; [done| |].
      * by left.
      * right. split; [|done]. intros ?. apply Hk0. by right.
Qed.

(** [deleteRule] on a store with unique subject ids: it returns, and the
    rules it leaves are the fragments of the rules it found. *)
Lemma deleteRule_run args d q :
  hasOwnProperty_intact (rules d) →
  unique_keys (rules d) → roomy (rules d) →
  _ruleFromArgs args d = (Ok q, d) →
  ∃ o',
    deleteRule args d = (Ok (), AclDoc.mk (defaultAccessTo d) o' (otherQuads d)) ∧
    unique_keys o' ∧
    ∀ f, f ∈ values o' ↔ ∃ r, r ∈ values (rules d) ∧ f ∈ AclRule.subtract r q.
Proof.
  intros Hint Hnd Hroomy Hq. destruct d as [dflt o oq].
  cbn [rules defaultAccessTo otherQuads] in *.
  destruct (deleteRule_loop dflt oq q (keys o) o) as (o' & Hloop & Hnd' & Hchar);
    [done..| |].
  { intros k Hk. unfold roomy in Hroomy. rewrite Forall_forall in Hroomy.
    specialize (Hroomy k Hk). rewrite length_keys. lia. }
  exists o'. split_and!; [|done|].
  - unfold deleteRule, bind at 1. rewrite Hq. unfold bind, read. cbn [rules].
    exact Hloop.
  - intros f. rewrite (values_get o' f Hnd'), Hchar. split.
    + intros (k & r & Hr & [[_ Hf]|[Hk _]]).
      * exists r. split; [|done]. apply values_get; eauto.
      * destruct Hk. apply get_is_Some. by eexists.
    + intros (r & [k Hk]%values_get & Hf); [|done].
      exists k, r. split; [done|]. left. split; [|done].
      apply get_is_Some. by eexists.
Qed.

End delete_rule.

(** *** [hasRule] *)

Section has_rule.
Import AclDoc.
Implicit Types (d : AclDoc.t) (q r w : AclRule.t) (rs ws : list AclRule.t).
Implicit Types (args : RuleArgs) (P : Permissions.t) (Ag : Agents.t).

(** Fragments of rules with foreign quads are never dropped, so the working
    list never empties. *)
Lemma hasRule_loop_quads rs ws :
  ws ≠ [] → Forall (λ w, AclRule.otherQuads w ≠ []) ws →
  hasRule_loop rs ws = false.
Proof.
  revert ws. induction rs as [|r rs IH]; intros ws Hne Hquads; [done|].
  simpl.
  assert (Forall (λ w, AclRule.otherQuads w ≠ []) (subtract_all ws r)) as Hnew.
  { rewrite Forall_forall in *. intros f (w & Hw & Hf)%elem_of_subtract_all.
    apply elem_of_subtract in Hf as (_ & _ & _ & ->). by apply Hquads. }
  assert (subtract_all ws r ≠ []) as Hne'.
  { destruct ws as [|w ws']; [done|].
    assert (piece1 w r ∈ subtract_all (w :: ws') r) as Hin.
    { apply elem_of_subtract_all. exists w. split; [left|].
      rewrite subtract_pieces. apply list_elem_of_filter. split; [|left].
      apply Forall_cons in Hquads as [Hw _].
      assert (AclRule.hasNoEffect (piece1 w r) = false) as ->; [|done].
      apply hasNoEffect_false. by left. }
    intros E. rewrite E in Hin. by apply elem_of_nil in Hin. }
  rewrite bool_decide_eq_false_2; [by apply IH|].
  by rewrite length_zero_iff_nil.
Qed.

(** The loop is monotone in the set of stored rules. *)
Lemma hasRule_loop_mono rs rs' q :
  AclRule.accessTo q ≠ [] → (∀ r, r ∈ rs → r ∈ rs') →
  hasRule_loop rs [q] = true → hasRule_loop rs' [q] = true.
Proof.
  intros Hacc Hsub.
  destruct (decide (AclRule.otherQuads q = [])) as [Hq|Hq].
  - rewrite !hasRule_loop_spec by (by repeat constructor).
    intros [Hne Hcov]. split.
    + destruct rs as [|r rs]; [done|]. intros E.
      specialize (Hsub r ltac:(left)). rewrite E in Hsub. by apply elem_of_nil in Hsub.
    + intros p a Hw. destruct (Hcov p a Hw) as (r & Hr & Hc). eauto.
  - rewrite (hasRule_loop_quads rs [q]); [done..|]. by repeat constructor.
Qed.

Lemma _ruleFromArgs_default args d d' :
  defaultAccessTo d = defaultAccessTo d' →
  (_ruleFromArgs args d).1 = (_ruleFromArgs args d').1.
Proof.
  intros Hd. unfold _ruleFromArgs, _getDefaultAccessTo, bind, read, ret, throw.
  case_bool_decide; [|done]. rewrite Hd.
  destruct (defaultAccessTo d') as [s|]; [|done]. by case_decide.
Qed.

Lemma hasRule_fst args d :
  (hasRule args d).1 =
  match (_ruleFromArgs args d).1 with
  | Ok q => Ok (hasRule_loop (values (rules d)) [q])
  | Throw e => Throw e
  end.
Proof.
  destruct (_ruleFromArgs_cases args d) as [[H _]|(q & H & _)].
  - by rewrite (hasRule_throws _ _ _ H), H.
  - by rewrite (hasRule_run _ _ _ H), H.
Qed.

Lemma _ruleFromArgs_parts P Ag acc d :
  acc ≠ [] ∨ has_default d →
  ∃ q, _ruleFromArgs (OfParts P Ag acc) d = (Ok q, d) ∧
       AclRule.permissions q = P ∧ AclRule.agents q = Ag ∧
       AclRule.otherQuads q = [] ∧ AclRule.accessTo q ≠ [].
Proof.
  intros Hacc.
  destruct (_ruleFromArgs_cases (OfParts P Ag acc) d)
    as [(_ & E & Hno)|(q & Hrun & Hq & HqP & HqA & Hquads & _)].
  - simpl in E. tauto.
  - exists q. by split_and!.
Qed.

(** X13.  Adding rules to a store never turns a [true] of [hasRule] into something
    else, wherever and under whatever subject ids they are added. *)
Theorem hasRule_monotone (d d' : AclDoc.t) (args : RuleArgs) :
  defaultAccessTo d = defaultAccessTo d' →
  (∀ r, r ∈ values (rules d) → r ∈ values (rules d')) →
  (hasRule args d).1 = Ok true → (hasRule args d').1 = Ok true.
Proof.
  intros Hd Hsub. rewrite !hasRule_fst, <-(_ruleFromArgs_default args d d' Hd).
  destruct (_ruleFromArgs_cases args d) as [[H _]|(q & H & Hacc & _)];
    rewrite H; simpl; [done|].
  intros [= Hloop]. f_equal. by apply (hasRule_loop_mono (values (rules d))).
Qed.



(** X16.  What is found for a request is found for every smaller request. *)
Theorem hasRule_subquery (d : AclDoc.t) (P P' : Permissions.t) (Ag Ag' : Agents.t)
    (accessTo : list string) :
  P' ⊆ P → Ag' ⊆ Ag →
  (hasRule (OfParts P Ag accessTo) d).1 = Ok true →
  (hasRule (OfParts P' Ag' accessTo) d).1 = Ok true.
Proof.
  intros HP HAg.
  destruct (_ruleFromArgs_cases (OfParts P Ag accessTo) d)
    as [(Hthrow & _)|(q & Hrun & Hq & HqP & HqA & Hquads & Hacc)].
  { by rewrite (hasRule_throws _ _ _ Hthrow). }
  destruct (_ruleFromArgs_parts P' Ag' accessTo d Hacc)
    as (q' & Hrun' & HqP' & HqA' & Hquads' & Hq').
  rewrite (hasRule_run _ _ _ Hrun), (hasRule_run _ _ _ Hrun'). simpl in *.
  intros [= Hloop]. f_equal. revert Hloop.
  rewrite !hasRule_loop_spec by (by repeat constructor).
  intros [Hne Hcov]. split; [done|].
  intros p a (w & ->%list_elem_of_singleton & [Hp Ha]).
  apply Hcov. exists q. split; [left|]. unfold covers.
  rewrite HqP, HqA. rewrite HqP' in Hp. rewrite HqA' in Ha. set_solver.
Qed.

End has_rule.

(** *** Deleting *)

Section deleting.
Import AclDoc.
Implicit Types (d : AclDoc.t) (q r f : AclRule.t).
Implicit Types (P : Permissions.t) (Ag : Agents.t) (p : Permissions.Permission)
  (a : Agents.Agent).

Lemma fragment_outside r q f p a :
  f ∈ AclRule.subtract r q → covers f p a → covers r p a ∧ ¬ covers q p a.
Proof.
  intros ([-> | ->] & _)%elem_of_subtract.
  - rewrite covers_piece1. unfold covers. tauto.
  - rewrite covers_piece2. unfold covers. tauto.
Qed.

(** X17.  On a store with no rule under ["hasOwnProperty"]: after
    [deleteRule(P, Ag)] no stored rule grants a pair of [P] and [Ag], and
    [hasRule(P, Ag)] answers [false] for a non-empty request. *)
Theorem deleteRule_removes (d : AclDoc.t) (P : Permissions.t) (Ag : Agents.t)
    (accessTo : list string) :
  hasOwnProperty_intact (rules d) →
  unique_keys (rules d) → roomy (rules d) → accessTo ≠ [] ∨ has_default d →
  ∃ d', deleteRule (OfParts P Ag accessTo) d = (Ok (), d') ∧
        (∀ r p a, r ∈ values (rules d') → p ∈ P → a ∈ Ag → ¬ covers r p a) ∧
        (P ≠ ∅ → Ag ≠ ∅ → hasRule (OfParts P Ag accessTo) d' = (Ok false, d')).
Proof.
  intros Hint Hnd Hroomy Hacc.
  destruct (_ruleFromArgs_parts P Ag accessTo d Hacc) as (q & Hq & HqP & HqA & _).
  destruct (deleteRule_run _ d q Hint Hnd Hroomy Hq) as (o' & Hrun & _ & Hchar).
  eexists. split; [exact Hrun|]. cbn [rules].
  assert (∀ r p a, r ∈ values o' → p ∈ P → a ∈ Ag → ¬ covers r p a) as Hgone.
  { intros r p a (r0 & _ & Hf)%Hchar Hp Ha Hc.
    destruct (fragment_outside _ _ _ _ _ Hf Hc) as [_ Hout].
    apply Hout. unfold covers. by rewrite HqP, HqA. }
  split; [done|]. intros HP HAg.
  set (d' := AclDoc.mk (defaultAccessTo d) o' (otherQuads d)).
  assert (accessTo ≠ [] ∨ has_default d') as Hacc'.
  { destruct Hacc as [?|Hd]; [by left|by right]. }
  destruct (_ruleFromArgs_parts P Ag accessTo d' Hacc')
    as (q' & Hq' & HqP' & HqA' & Hquads' & Htarget').
  rewrite (hasRule_run _ _ _ Hq'). do 2 f_equal. cbn [rules d'].
  destruct (hasRule_loop (values o') [q']) eqn:E; [exfalso|done].
  apply hasRule_loop_spec in E as [_ Hcov]; [|by repeat constructor].
  apply set_choose_L in HP as [p Hp]. apply set_choose_L in HAg as [a Ha].
  destruct (Hcov p a) as (r & Hr & Hc).
  { exists q'. split; [left|]. unfold covers. by rewrite HqP', HqA'. }
  by apply (Hgone r p a).
Qed.

(** X18.  On a store with no rule under ["hasOwnProperty"],
    [deleteRule(P, Ag)] takes away nothing else: a pair outside [P] x [Ag]
    granted by a stored rule with a target stays granted, nothing is granted
    that was not, and every rule left is an effective part of a rule that was
    there, with its targets, quads and default flags. *)
Theorem deleteRule_keeps_rest (d : AclDoc.t) (P : Permissions.t) (Ag : Agents.t)
    (accessTo : list string) :
  hasOwnProperty_intact (rules d) →
  unique_keys (rules d) → roomy (rules d) → accessTo ≠ [] ∨ has_default d →
  ∃ d', deleteRule (OfParts P Ag accessTo) d = (Ok (), d') ∧
        unique_keys (rules d') ∧
        (∀ r p a, r ∈ values (rules d) →
           AclRule.accessTo r ≠ [] ∨ AclRule.otherQuads r ≠ [] →
           covers r p a → ¬ (p ∈ P ∧ a ∈ Ag) →
           ∃ r', r' ∈ values (rules d') ∧ covers r' p a) ∧
        (∀ r', r' ∈ values (rules d') →
           AclRule.hasNoEffect r' = false ∧
           ∃ r, r ∈ values (rules d) ∧
                AclRule.permissions r' ⊆ AclRule.permissions r ∧
                AclRule.agents r' ⊆ AclRule.agents r ∧
                AclRule.accessTo r' = AclRule.accessTo r ∧
                AclRule.otherQuads r' = AclRule.otherQuads r ∧
                AclRule.default_ r' = AclRule.default_ r ∧
                AclRule.defaultForNew r' = AclRule.defaultForNew r).
Proof.
  intros Hint Hnd Hroomy Hacc.
  destruct (_ruleFromArgs_parts P Ag accessTo d Hacc) as (q & Hq & HqP & HqA & _).
  destruct (deleteRule_run _ d q Hint Hnd Hroomy Hq) as (o' & Hrun & Hnd' & Hchar).
  eexists. split; [exact Hrun|]. cbn [rules]. split_and!; [done| |].
  - intros r p a Hr Htarget Hc Hout.
    destruct (proj2 (subtract_covers r q p a Htarget)) as (f & Hf & Hcf).
    { split; [done|]. unfold covers. rewrite HqP, HqA. tauto. }
    exists f. split; [|done]. apply Hchar. eauto.
  - intros r' (r & Hr & Hf)%Hchar.
    apply elem_of_subtract in Hf as (Hpiece & Heff & _). split; [done|].
    exists r. split; [done|].
    destruct Hpiece as [-> | ->];
      unfold piece1, piece2, AclRule.new, Agents.subtract, Agents.common,
        Permissions.subtract; simpl; split_and!; try done; set_solver.
Qed.

(** X19.  On a store with no rule under ["hasOwnProperty"]: after
    [deleteAgents(Ag)] no stored rule grants anything to an agent of [Ag]. *)
Theorem deleteAgents_removes (d : AclDoc.t) (Ag : Agents.t) :
  hasOwnProperty_intact (rules d) →
  unique_keys (rules d) → roomy (rules d) → has_default d →
  ∃ d', deleteAgents Ag d = (Ok (), d') ∧
        ∀ r p a, r ∈ values (rules d') → a ∈ Ag → ¬ covers r p a.
Proof.
  intros Hint Hnd Hroomy Hd. unfold deleteAgents.
  set (args := OfRule (AclRule.new Permissions.ALL Ag [] AclRule.noOptions)).
  destruct (_ruleFromArgs_cases args d)
    as [(_ & _ & Hno)|(q & Hq & _ & HqP & HqA & _)]; [done|].
  simpl in HqP, HqA.
  destruct (deleteRule_run _ d q Hint Hnd Hroomy Hq) as (o' & Hrun & _ & Hchar).
  eexists. split; [exact Hrun|]. cbn [rules].
  intros r p a (r0 & _ & Hf)%Hchar Ha Hc.
  destruct (fragment_outside _ _ _ _ _ Hf Hc) as [_ Hout].
  apply Hout. unfold covers. rewrite HqP, HqA. split; [|done].
  unfold Permissions.ALL. destruct p; set_solver.
Qed.

(** X20.  On a store with no rule under ["hasOwnProperty"],
    [deleteBySubject] without a rule removes the entry of that subject and
    no other and does not throw; on a subject that is not stored it does
    nothing, with or without a rule. *)
Theorem deleteBySubject_subject_group (d : AclDoc.t) (subjectId : string) :
  hasOwnProperty_intact (rules d) →
  deleteBySubject subjectId None d =
    (Ok (), AclDoc.mk (defaultAccessTo d) (remove subjectId (rules d)) (otherQuads d)) ∧
  get subjectId (remove subjectId (rules d)) = None ∧
  (∀ k, k ≠ subjectId → get k (remove subjectId (rules d)) = get k (rules d)) ∧
  (subjectId ∉ keys (rules d) → ∀ rule, deleteBySubject subjectId rule d = (Ok (), d)).
Proof.
  intros Hint. split_and!.
  - unfold deleteBySubject, bind, read, lift.
    rewrite hasOwnProperty_intact_Ok by done. case_bool_decide as Hin; [done|].
    rewrite remove_notin by done. by destruct d.
  - apply get_remove_eq.
  - intros k Hk. by apply get_remove_ne.
  - intros Hk rule. unfold deleteBySubject, bind, read, lift.
    rewrite hasOwnProperty_intact_Ok by done. by rewrite bool_decide_eq_false_2.
Qed.

End deleting.

(** *** Adding and aggregating *)

Section adding.
Import AclDoc.
Implicit Types (d : AclDoc.t) (q r : AclRule.t) (args : RuleArgs).
Implicit Types (P : Permissions.t) (Ag : Agents.t) (p : Permissions.Permission)
  (a : Agents.Agent).

Lemma default_base : match_digits "new-acl-rule-1" = ("new-acl-rule-", "1").
Proof. reflexivity. Qed.

Lemma addRule_named_run args s d q :
  s ≠ "" → _ruleFromArgs args d = (Ok q, d) →
  addRule args (Some s) d =
  (Ok (), AclDoc.mk (defaultAccessTo d) (set s q (rules d)) (otherQuads d)).
Proof.
  intros Hs Hq. unfold addRule, bind at 1. rewrite Hq.
  rewrite decide_False by done. done.
Qed.

Lemma default_id_plain (i : N) :
  array_index ("new-acl-rule-" +:+ pretty i) = None ∧
  "new-acl-rule-" +:+ pretty i ≠ "__proto__".
Proof.
  split; [|apply candidate_not_special].
  destruct (array_index ("new-acl-rule-" +:+ pretty i)) as [n|] eqn:E; [|done].
  apply array_index_digits in E. by vm_compute in E.
Qed.

Lemma addRule_generated_run args d q :
  hasOwnProperty_intact (rules d) →
  (N.of_nat (length (rules d)) < MAX_SAFE)%N →
  _ruleFromArgs args d = (Ok q, d) →
  ∃ id, generated_id (rules d) "new-acl-rule-" 1%N id ∧
        addRule args None d =
        (Ok (), AclDoc.mk (defaultAccessTo d) (rules d ++ [(id, q)]) (otherQuads d)).
Proof.
  intros Hint Hlen Hq.
  destruct (_getNewSubjectId_run "new-acl-rule-1" d Hint) as (id & Hid & Hgen).
  { rewrite default_base. cbn [snd]. change (Number "1") with 1%N. lia. }
  rewrite default_base in Hgen. cbn [fst snd] in Hgen.
  change (Number "1") with 1%N in Hgen.
  exists id. split; [done|].
  unfold addRule, bind at 1. rewrite Hq. unfold bind at 1.
  change (_getNewSubjectId None d) with (_getNewSubjectId (Some "new-acl-rule-1") d).
  rewrite Hid. unfold write_rules. do 2 f_equal.
  destruct Hgen as (i & -> & _ & _ & Hnew & _).
  destruct (default_id_plain i) as [Hidx Hp]. by apply set_notin.
Qed.

(** X21.  [addRule] with a subject id other than ["__proto__"] stores the rule
    built from the arguments under it, with a target in any case: an entry
    already there is overwritten in place; otherwise an entry is added, last
    unless the id is an array index, which goes to its numeric place.  No
    other entry changes and subject ids stay unique. *)
Theorem addRule_named (d : AclDoc.t) (args : RuleArgs) (subjectId : string) :
  subjectId ≠ "" → subjectId ≠ "__proto__" →
  AclRule.accessTo (from args) ≠ [] ∨ has_default d →
  ∃ rule o',
    addRule args (Some subjectId) d =
      (Ok (), AclDoc.mk (defaultAccessTo d) o' (otherQuads d)) ∧
    get subjectId o' = Some rule ∧
    (∀ k, k ≠ subjectId → get k o' = get k (rules d)) ∧
    (subjectId ∈ keys (rules d) → keys o' = keys (rules d)) ∧
    (subjectId ∉ keys (rules d) →
       o' ≡ₚ rules d ++ [(subjectId, rule)] ∧
       match array_index subjectId with
       | Some n => o' = insert_index n subjectId rule (rules d)
       | None => o' = rules d ++ [(subjectId, rule)]
       end) ∧
    (unique_keys (rules d) → unique_keys o') ∧
    AclRule.accessTo rule ≠ [] ∧
    AclRule.permissions rule = AclRule.permissions (from args) ∧
    AclRule.agents rule = AclRule.agents (from args) ∧
    AclRule.otherQuads rule = AclRule.otherQuads (from args).
Proof.
  intros Hs Hp Hacc.
  destruct (_ruleFromArgs_cases args d)
    as [(_ & E & Hno)|(q & Hq & Htarget & HqP & HqA & Hquads & _)]; [tauto|].
  exists q, (set subjectId q (rules d)). split_and!; try done.
  - by apply addRule_named_run.
  - by apply get_set_eq.
  - intros k Hk. by apply get_set_ne.
  - apply keys_set_in.
  - intros Hnew. split; [by apply set_Permutation|].
    rewrite set_new, decide_False by done. by destruct (array_index subjectId).
  - apply NoDup_keys_set.
Qed.

(** X22.  On a store with no rule under ["hasOwnProperty"], [addRule]
    without a subject id (or with the empty string) never overwrites: the
    rule goes last under ['new-acl-rule-n'] for the first [n] from 1 on that
    is unused. *)
Theorem addRule_generated (d : AclDoc.t) (args : RuleArgs) :
  hasOwnProperty_intact (rules d) →
  (N.of_nat (length (rules d)) < MAX_SAFE)%N →
  AclRule.accessTo (from args) ≠ [] ∨ has_default d →
  ∃ id rule,
    addRule args None d =
      (Ok (), AclDoc.mk (defaultAccessTo d) (rules d ++ [(id, rule)]) (otherQuads d)) ∧
    addRule args (Some "") d = addRule args None d ∧
    generated_id (rules d) "new-acl-rule-" 1%N id ∧
    (∀ k, k ∈ keys (rules d) → get k (rules d ++ [(id, rule)]) = get k (rules d)) ∧
    get id (rules d ++ [(id, rule)]) = Some rule ∧
    AclRule.accessTo rule ≠ [].
Proof.
  intros Hint Hlen Hacc.
  destruct (_ruleFromArgs_cases args d)
    as [(_ & E & Hno)|(q & Hq & Htarget & _)]; [tauto|].
  destruct (addRule_generated_run args d q Hint Hlen Hq) as (id & Hgen & Hrun).
  exists id, q. split_and!; try done.
  - intros k [v Hv]%get_is_Some. by rewrite get_app, Hv.
  - rewrite get_app. destruct Hgen as (? & _ & _ & _ & Hnew%get_None & _).
    rewrite Hnew. simpl. by rewrite decide_True.
Qed.

(** X23.  What was added is found: after [addRule(P, Ag)] under a subject id
    other than ["__proto__"], or under a generated id on a store with no
    rule under ["hasOwnProperty"], [hasRule(P, Ag)] answers [true]. *)
Theorem addRule_then_hasRule (d : AclDoc.t) (P : Permissions.t) (Ag : Agents.t)
    (accessTo : list string) (subjectId : option string) :
  accessTo ≠ [] ∨ has_default d →
  subjectId ≠ Some "__proto__" →
  (subjectId = None ∨ subjectId = Some "" →
   hasOwnProperty_intact (rules d) ∧ (N.of_nat (length (rules d)) < MAX_SAFE)%N) →
  ∃ d', addRule (OfParts P Ag accessTo) subjectId d = (Ok (), d') ∧
        hasRule (OfParts P Ag accessTo) d' = (Ok true, d').
Proof.
  intros Hacc Hproto Hgenerated.
  destruct (_ruleFromArgs_parts P Ag accessTo d Hacc) as (q & Hq & HqP & HqA & _).
  assert (∃ id o', addRule (OfParts P Ag accessTo) subjectId d =
                     (Ok (), AclDoc.mk (defaultAccessTo d) o' (otherQuads d)) ∧
                   get id o' = Some q) as (id & o' & Hrun & Hget).
  { assert (subjectId = None ∨ subjectId = Some "" →
            ∃ id o', addRule (OfParts P Ag accessTo) None d =
                       (Ok (), AclDoc.mk (defaultAccessTo d) o' (otherQuads d)) ∧
                     get id o' = Some q) as Hgen.
    { intros [Hint Hlen]%Hgenerated.
      destruct (addRule_generated_run _ d q Hint Hlen Hq) as (id & Hgen & Hrun).
      exists id, (rules d ++ [(id, q)]). split; [done|].
      rewrite get_app. destruct Hgen as (? & _ & _ & _ & Hnew%get_None & _).
      rewrite Hnew. simpl. by rewrite decide_True. }
    destruct subjectId as [s|]; [|by apply Hgen; left].
    destruct (decide (s = "")) as [->|Hs]; [by apply Hgen; right|].
    exists s, (set s q (rules d)). split; [by apply addRule_named_run|].
    apply get_set_eq. congruence. }
  eexists. split; [exact Hrun|].
  set (d' := AclDoc.mk (defaultAccessTo d) o' (otherQuads d)).
  assert (accessTo ≠ [] ∨ has_default d') as Hacc'.
  { destruct Hacc as [?|Hd]; [by left|by right]. }
  destruct (_ruleFromArgs_parts P Ag accessTo d' Hacc')
    as (q' & Hq' & HqP' & HqA' & Hquads' & Htarget').
  rewrite (hasRule_run _ _ _ Hq'). do 2 f_equal. cbn [rules d'].
  assert (q ∈ values o') as Hin.
  { apply get_Some_elem in Hget. unfold values. apply list_elem_of_fmap.
    by exists (id, q). }
  apply hasRule_loop_spec; [by repeat constructor|]. split.
  - intros E. rewrite E in Hin. by apply elem_of_nil in Hin.
  - intros p a (w & ->%list_elem_of_singleton & [Hp Ha]).
    exists q. split; [done|]. unfold covers. rewrite HqP, HqA.
    rewrite HqP' in Hp. rewrite HqA' in Ha. done.
Qed.

(** X24.  Without an [accessTo] in the arguments and without default target, the
    methods that build a rule throw, and leave the document as it was. *)
Theorem missing_accessTo_throws (d : AclDoc.t) (args : RuleArgs)
    (subjectId : option string) (Ag : Agents.t) :
  AclRule.accessTo (from args) = [] → ¬ has_default d →
  addRule args subjectId d = (Throw MissingAccessTo, d) ∧
  hasRule args d = (Throw MissingAccessTo, d) ∧
  deleteRule args d = (Throw MissingAccessTo, d) ∧
  deleteAgents Ag d = (Throw MissingAccessTo, d).
Proof.
  intros Hacc Hno.
  assert (∀ args', AclRule.accessTo (from args') = [] →
                   _ruleFromArgs args' d = (Throw MissingAccessTo, d)) as Hthrow.
  { intros args' E.
    destruct (_ruleFromArgs_cases args' d) as [(H & _)|(q & _ & _ & _ & _ & _ & [?|?])];
      done. }
  split_and!.
  - unfold addRule, bind at 1. by rewrite Hthrow.
  - by apply hasRule_throws, Hthrow.
  - unfold deleteRule, bind at 1. by rewrite Hthrow.
  - unfold deleteAgents, deleteRule, bind at 1. by rewrite Hthrow.
Qed.

Lemma getPermissionsFor_elem d Ag :
  let qualifying := filter (λ r, Ag ⊆ AclRule.agents r) (values (rules d)) in
  getPermissionsFor Ag d =
  (match qualifying with
   | [] => Throw EmptyReduction
   | _ => Ok (⋃ (AclRule.permissions <$> qualifying))
   end, d).
Proof.
  intros qualifying. unfold getPermissionsFor, bind, read.
  rewrite (list_filter_iff _ (λ r, Ag ⊆ AclRule.agents r)).
  2:{ intros r. unfold Agents.includes. by rewrite bool_decide_eq_true. }
  fold qualifying. destruct qualifying as [|r rs]; [done|].
  unfold reduce, ret. simpl. do 2 f_equal. apply foldl_union.
Qed.

Lemma getAgentsWith_elem d P :
  let qualifying := filter (λ r, P ⊆ AclRule.permissions r) (values (rules d)) in
  getAgentsWith P d =
  (match qualifying with
   | [] => Throw EmptyReduction
   | _ => Ok (⋃ (AclRule.agents <$> qualifying))
   end, d).
Proof.
  intros qualifying. unfold getAgentsWith, bind, read.
  rewrite (list_filter_iff _ (λ r, P ⊆ AclRule.permissions r)).
  2:{ intros r. unfold Permissions.includes. by rewrite bool_decide_eq_true. }
  fold qualifying. destruct qualifying as [|r rs]; [done|].
  unfold reduce, ret. simpl. do 2 f_equal. apply foldl_union.
Qed.

Lemma getPermissionsFor_Ok d Ag Ps :
  (getPermissionsFor Ag d).1 = Ok Ps →
  ∀ p, p ∈ Ps ↔
       ∃ r, r ∈ values (rules d) ∧ Ag ⊆ AclRule.agents r ∧ p ∈ AclRule.permissions r.
Proof.
  intros H p.
  assert (Ps = ⋃ (AclRule.permissions <$>
                    filter (λ r, Ag ⊆ AclRule.agents r) (values (rules d)))) as ->.
  { revert H. rewrite getPermissionsFor_elem. cbn [fst].
    destruct (filter _ (values (rules d))); [done|]. by intros [= <-]. }
  rewrite elem_of_union_list. split.
  - intros (X & (r & -> & [? ?]%list_elem_of_filter)%list_elem_of_fmap & Hp). eauto.
  - intros (r & Hr & HAg & Hp). exists (AclRule.permissions r). split; [|done].
    apply list_elem_of_fmap. exists r. split; [done|]. by apply list_elem_of_filter.
Qed.

Lemma getAgentsWith_Ok d P As :
  (getAgentsWith P d).1 = Ok As →
  ∀ a, a ∈ As ↔
       ∃ r, r ∈ values (rules d) ∧ P ⊆ AclRule.permissions r ∧ a ∈ AclRule.agents r.
Proof.
  intros H a.
  assert (As = ⋃ (AclRule.agents <$>
                    filter (λ r, P ⊆ AclRule.permissions r) (values (rules d)))) as ->.
  { revert H. rewrite getAgentsWith_elem. cbn [fst].
    destruct (filter _ (values (rules d))); [done|]. by intros [= <-]. }
  rewrite elem_of_union_list. split.
  - intros (X & (r & -> & [? ?]%list_elem_of_filter)%list_elem_of_fmap & Ha). eauto.
  - intros (r & Hr & HP & Ha). exists (AclRule.agents r). split; [|done].
    apply list_elem_of_fmap. exists r. split; [done|]. by apply list_elem_of_filter.
Qed.

Lemma getPermissionsFor_returns d Ag r :
  r ∈ values (rules d) → Ag ⊆ AclRule.agents r →
  ∃ Ps, (getPermissionsFor Ag d).1 = Ok Ps.
Proof.
  intros Hr HAg. rewrite getPermissionsFor_elem. cbn [fst].
  assert (r ∈ filter (λ r, Ag ⊆ AclRule.agents r) (values (rules d))) as Hin
    by (by apply list_elem_of_filter).
  destruct (filter _ (values (rules d))); [by apply elem_of_nil in Hin|by eexists].
Qed.

Lemma hasRule_single_rule d P Ag r :
  has_default d → r ∈ values (rules d) →
  P ⊆ AclRule.permissions r → Ag ⊆ AclRule.agents r →
  (hasRule (OfParts P Ag []) d).1 = Ok true.
Proof.
  intros Hd Hr HP HAg.
  destruct (_ruleFromArgs_parts P Ag [] d (or_intror Hd))
    as (q & Hq & HqP & HqA & Hquads & Htarget).
  rewrite (hasRule_run _ _ _ Hq). simpl. f_equal.
  apply hasRule_loop_spec; [by repeat constructor|]. split.
  - intros E. rewrite E in Hr. by apply elem_of_nil in Hr.
  - intros p a (w & ->%list_elem_of_singleton & [Hp Ha]).
    exists r. split; [done|]. rewrite HqP in Hp. rewrite HqA in Ha.
    unfold covers. set_solver.
Qed.

(** X25.  The aggregates agree with [hasRule]: a permission reported by
    [getPermissionsFor(Ag)] is found by [hasRule] for [Ag], and an agent
    reported by [getAgentsWith(P)] is found by [hasRule] for [P]. *)
Theorem aggregates_sound (d : AclDoc.t) :
  has_default d →
  (∀ Ag Ps p, (getPermissionsFor Ag d).1 = Ok Ps → p ∈ Ps →
              (hasRule (OfParts {[p]} Ag []) d).1 = Ok true) ∧
  (∀ P As a, (getAgentsWith P d).1 = Ok As → a ∈ As →
             (hasRule (OfParts P {[a]} []) d).1 = Ok true).
Proof.
  intros Hd. split.
  - intros Ag Ps p HPs (r & Hr & HAg & Hp)%(getPermissionsFor_Ok d Ag Ps HPs).
    apply (hasRule_single_rule d _ _ r); [done..|set_solver|done].
  - intros P As a HAs (r & Hr & HP & Ha)%(getAgentsWith_Ok d P As HAs).
    apply (hasRule_single_rule d _ _ r); [done..|set_solver].
Qed.

(** X26.  For one agent and one permission the two queries say the same:
    [getPermissionsFor] of the agent reports the permission exactly when
    [hasRule] finds the pair. *)
Theorem getPermissionsFor_single_agent (d : AclDoc.t) (p : Permissions.Permission)
    (a : Agents.Agent) :
  has_default d →
  (∃ Ps, (getPermissionsFor {[a]} d).1 = Ok Ps ∧ p ∈ Ps) ↔
  (hasRule (OfParts {[p]} {[a]} []) d).1 = Ok true.
Proof.
  intros Hd. split.
  - intros (Ps & HPs & (r & Hr & HAg & Hp)%(getPermissionsFor_Ok d _ Ps HPs)).
    apply (hasRule_single_rule d _ _ r); [done..|set_solver|done].
  - destruct (_ruleFromArgs_parts {[p]} {[a]} [] d (or_intror Hd))
      as (q & Hq & HqP & HqA & Hquads & Htarget).
    rewrite (hasRule_run _ _ _ Hq). simpl. intros [= Hloop].
    apply hasRule_loop_spec in Hloop as [_ Hcov]; [|by repeat constructor].
    destruct (Hcov p a) as (r & Hr & [Hp Ha]).
    { exists q. split; [left|]. unfold covers. rewrite HqP, HqA. set_solver. }
    assert ({[a]} ⊆ AclRule.agents r) as HAg by set_solver.
    destruct (getPermissionsFor_returns d _ r Hr HAg) as [Ps HPs].
    exists Ps. split; [done|]. apply (getPermissionsFor_Ok d _ Ps HPs). eauto.
Qed.

End adding.

(** *** Subject ids that meet [Object.prototype] *)

Section prototype_keys.
Import AclDoc.
Implicit Types (d : AclDoc.t) (args : RuleArgs).

Lemma deleteBySubject_shadowed d k rule :
  "hasOwnProperty" ∈ keys (rules d) →
  deleteBySubject k rule d = (Throw NotAFunction, d).
Proof.
  intros Hin. unfold deleteBySubject, bind, read, lift.
  by rewrite hasOwnProperty_shadowed.
Qed.

(** X28.  While a rule is stored under the subject id ["hasOwnProperty"], the
    methods that ask the dictionary for its own properties throw a type
    error and change nothing: [deleteBySubject], [deletePermissions],
    [deleteRule] and [addRule] without subject id. *)
Theorem shadowed_hasOwnProperty_throws (d : AclDoc.t) :
  "hasOwnProperty" ∈ keys (rules d) →
  (∀ k rule, deleteBySubject k rule d = (Throw NotAFunction, d)) ∧
  (∀ P, deletePermissions P d = (Throw NotAFunction, d)) ∧
  (∀ args, AclRule.accessTo (from args) ≠ [] ∨ has_default d →
           deleteRule args d = (Throw NotAFunction, d) ∧
           addRule args None d = (Throw NotAFunction, d) ∧
           addRule args (Some "") d = (Throw NotAFunction, d)).
Proof.
  intros Hin.
  assert (∃ k r o, rules d = (k, r) :: o) as (k0 & r0 & o0 & Ho).
  { destruct (rules d) as [|[k r] o]; [by apply elem_of_nil in Hin|eauto]. }
  split_and!.
  - intros k rule. by apply deleteBySubject_shadowed.
  - intros P. unfold deletePermissions, bind at 1, read at 1, entries.
    rewrite Ho. cbn [for_of]. unfold bind at 1. cbv zeta.
    by rewrite deleteBySubject_shadowed.
  - intros args Hacc.
    destruct (_ruleFromArgs_cases args d)
      as [(_ & E & Hno)|(q & Hq & _)]; [tauto|].
    assert (_getNewSubjectId None d = (Throw NotAFunction, d)) as Hid.
    { unfold _getNewSubjectId, bind, read, lift. rewrite default_base.
      by rewrite _getNewSubjectId_loop_shadowed. }
    split_and!.
    + unfold deleteRule, bind at 1. rewrite Hq.
      unfold bind at 1, read at 1. rewrite Ho.
      unfold keys. rewrite fmap_cons. cbn [for_of]. unfold bind at 1.
      by rewrite deleteBySubject_shadowed.
    + unfold addRule, bind at 1. rewrite Hq. unfold bind at 1. by rewrite Hid.
    + unfold addRule, bind at 1. rewrite Hq. unfold bind at 1.
      rewrite decide_True by done. by rewrite Hid.
Qed.

(** X29.  [addRule] under the subject id ["__proto__"], when the store has no
    own property of that name, returns without error and stores nothing:
    the document is as before. *)
Theorem addRule_proto_stores_nothing (d : AclDoc.t) (args : RuleArgs) :
  "__proto__" ∉ keys (rules d) →
  AclRule.accessTo (from args) ≠ [] ∨ has_default d →
  addRule args (Some "__proto__") d = (Ok (), d).
Proof.
  intros Hnew Hacc.
  destruct (_ruleFromArgs_cases args d)
    as [(_ & E & Hno)|(q & Hq & _)]; [tauto|].
  rewrite (addRule_named_run args "__proto__" d q) by done.
  rewrite set_proto by done. by destruct d.
Qed.

End prototype_keys.

(** ** The further properties at concrete inputs *)

Section further_witnesses.
Import AclDoc.

Ltac by_compute := apply (bool_decide_unpack _); vm_compute; exact I.

Lemma scenario_has_default : has_default (scenario_doc resource).
Proof. exists resource. split; [reflexivity|discriminate]. Defined.

Lemma scenario_unique_keys : unique_keys (rules (scenario_doc resource)).
Proof. unfold unique_keys. by_compute. Defined.

Lemma scenario_intact : hasOwnProperty_intact (rules (scenario_doc resource)).
Proof. unfold hasOwnProperty_intact. by_compute. Defined.

Lemma scenario_roomy : roomy (rules (scenario_doc resource)).
Proof. unfold roomy. by_compute. Defined.

Lemma scenario_small : (N.of_nat (length (rules (scenario_doc resource))) < MAX_SAFE)%N.
Proof. by_compute. Defined.

Lemma piece1_is_fragment :
  piece1 first_rule_on_resource second_rule ∈
  AclRule.subtract first_rule_on_resource second_rule.
Proof.
  rewrite subtract_pieces. apply list_elem_of_filter. split; [|left].
  vm_compute. exact I.
Defined.

Lemma subtract_common_partition_witness :
  (covers (AclRule.common first_rule_on_resource second_rule)
     Permissions.WRITE (Agents.WebId "web") ∧
   count_covering Permissions.WRITE (Agents.WebId "web")
     (AclRule.subtract first_rule_on_resource second_rule) = 0) ∨
  (¬ covers (AclRule.common first_rule_on_resource second_rule)
       Permissions.WRITE (Agents.WebId "web") ∧
   count_covering Permissions.WRITE (Agents.WebId "web")
     (AclRule.subtract first_rule_on_resource second_rule) = 1).
Proof.
  apply (subtract_common_partition first_rule_on_resource second_rule).
  - left. discriminate.
  - unfold covers, first_rule_on_resource; simpl. set_solver.
Defined.

Lemma subtract_disjoint_agents_witness :
  AclRule.subtract read_A_on_resource read_B_on_resource = [read_A_on_resource].
Proof.
  apply (subtract_disjoint_agents read_A_on_resource read_B_on_resource).
  - reflexivity.
  - vm_compute. reflexivity.
  - unfold read_A_on_resource, read_B_on_resource, webA, webB; simpl. set_solver.
Defined.

Lemma subtract_fragment_stable_witness :
  AclRule.subtract (piece1 first_rule_on_resource second_rule) second_rule =
  [piece1 first_rule_on_resource second_rule].
Proof.
  apply (subtract_fragment_stable first_rule_on_resource second_rule).
  - reflexivity.
  - exact piece1_is_fragment.
Defined.

Lemma subtract_inherits_witness :
  AclRule.hasNoEffect (piece1 first_rule_on_resource second_rule) = false ∧
  AclRule.accessTo (piece1 first_rule_on_resource second_rule) = [resource].
Proof.
  pose proof (subtract_inherits first_rule_on_resource second_rule _
                piece1_is_fragment) as (_ & Heff & _ & _ & Hacc & _).
  split; [exact Heff|exact Hacc].
Defined.

Lemma hasNoEffect_no_pair_witness :
  AclRule.hasNoEffect read_nobody = true ↔ ∀ p a, ¬ covers read_nobody p a.
Proof.
  apply (hasNoEffect_no_pair read_nobody); [reflexivity|discriminate].
Defined.

Lemma getMinifiedRules_effective_witness :
  ∃ o', getMinifiedRules doc_with_empty_rule =
          (Ok o', AclDoc.mk (Some resource) o' []) ∧
        keys o' = ["#owner"; "#public"].
Proof.
  assert (unique_keys (rules doc_with_empty_rule)) as Hnd
    by (unfold unique_keys; by_compute).
  destruct (getMinifiedRules_effective doc_with_empty_rule Hnd)
    as (o' & Hrun & -> & _).
  eexists. split; [exact Hrun|]. vm_compute. reflexivity.
Defined.

Lemma getMinifiedRules_idempotent_witness :
  getMinifiedRules (getMinifiedRules doc_with_empty_rule).2 =
  getMinifiedRules doc_with_empty_rule.
Proof.
  apply (getMinifiedRules_idempotent doc_with_empty_rule).
  unfold unique_keys. by_compute.
Defined.

Lemma deletePermissions_strips_witness :
  ∃ o', deletePermissions {[Permissions.READ]} doc_with_empty_rule =
          (Ok (), AclDoc.mk (Some resource) o' []) ∧
        keys o' = ["#owner"; "#public"].
Proof.
  assert (unique_keys (rules doc_with_empty_rule)) as Hnd
    by (unfold unique_keys; by_compute).
  assert (quad_free (rules doc_with_empty_rule)) as Hq
    by (unfold quad_free; by_compute).
  assert (hasOwnProperty_intact (rules doc_with_empty_rule)) as Hint
    by (unfold hasOwnProperty_intact; by_compute).
  destruct (deletePermissions_strips doc_with_empty_rule {[Permissions.READ]}
              Hint Hnd Hq)
    as (o' & Hrun & -> & _).
  eexists. split; [exact Hrun|]. vm_compute. reflexivity.
Defined.

Lemma hasRule_monotone_witness :
  (hasRule read_A scenario_doc_extended).1 = Ok true.
Proof.
  apply (hasRule_monotone (scenario_doc resource) scenario_doc_extended read_A).
  - reflexivity.
  - intros r Hr. unfold scenario_doc_extended, values. cbn [rules].
    rewrite fmap_app. apply elem_of_app. left. exact Hr.
  - vm_compute. reflexivity.
Defined.



Lemma hasRule_subquery_witness :
  (hasRule (OfParts {[Permissions.READ]} {[webA]} []) (scenario_doc resource)).1 =
  Ok true.
Proof.
  apply (hasRule_subquery (scenario_doc resource)
           {[Permissions.READ; Permissions.WRITE]} {[Permissions.READ]}
           {[webA; webB]} {[webA]} []).
  - set_solver.
  - set_solver.
  - vm_compute. reflexivity.
Defined.

Lemma deleteRule_removes_witness :
  ∃ d', deleteRule read_A (scenario_doc resource) = (Ok (), d') ∧
        hasRule read_A d' = (Ok false, d').
Proof.
  destruct (deleteRule_removes (scenario_doc resource) {[Permissions.READ]} {[webA]} []
              scenario_intact scenario_unique_keys scenario_roomy (or_intror scenario_has_default))
    as (d' & Hrun & _ & Hfalse).
  exists d'. split; [exact Hrun|].
  apply Hfalse; apply non_empty_singleton_L.
Defined.

Lemma deleteRule_keeps_rest_witness :
  ∃ d', deleteRule read_A (scenario_doc resource) = (Ok (), d') ∧
        unique_keys (rules d').
Proof.
  destruct (deleteRule_keeps_rest (scenario_doc resource) {[Permissions.READ]} {[webA]} []
              scenario_intact scenario_unique_keys scenario_roomy (or_intror scenario_has_default))
    as (d' & Hrun & Hnd & _).
  exists d'. split; [exact Hrun|exact Hnd].
Defined.

Lemma deleteAgents_removes_witness :
  ∃ d', deleteAgents {[webA]} (scenario_doc resource) = (Ok (), d') ∧
        ∀ r p a, r ∈ values (rules d') → a ∈ ({[webA]} : Agents.t) → ¬ covers r p a.
Proof.
  exact (deleteAgents_removes (scenario_doc resource) {[webA]}
           scenario_intact scenario_unique_keys scenario_roomy scenario_has_default).
Defined.

Lemma addRule_named_witness :
  ∃ rule o',
    addRule read_A (Some "#reader") (scenario_doc resource) =
      (Ok (), AclDoc.mk (Some resource) o' []) ∧
    get "#reader" o' = Some rule.
Proof.
  destruct (addRule_named (scenario_doc resource) read_A "#reader")
    as (rule & o' & Hrun & Hget & _).
  - discriminate.
  - discriminate.
  - right. exact scenario_has_default.
  - exists rule, o'. split; [exact Hrun|exact Hget].
Defined.

Lemma addRule_generated_witness :
  ∃ id rule,
    addRule read_A None (scenario_doc resource) =
      (Ok (), AclDoc.mk (Some resource)
                (rules (scenario_doc resource) ++ [(id, rule)]) []) ∧
    generated_id (rules (scenario_doc resource)) "new-acl-rule-" 1%N id.
Proof.
  destruct (addRule_generated (scenario_doc resource) read_A scenario_intact
              scenario_small
              (or_intror scenario_has_default))
    as (id & rule & Hrun & _ & Hgen & _).
  exists id, rule. split; [exact Hrun|exact Hgen].
Defined.

Lemma addRule_then_hasRule_witness :
  ∃ d', addRule write_A None (scenario_doc resource) = (Ok (), d') ∧
        hasRule write_A d' = (Ok true, d').
Proof.
  apply (addRule_then_hasRule (scenario_doc resource) {[Permissions.WRITE]} {[webA]}
           [] None (or_intror scenario_has_default)).
  - discriminate.
  - intros _. split; [exact scenario_intact|exact scenario_small].
Defined.

Lemma missing_accessTo_throws_witness :
  addRule read_A None doc_without_default = (Throw MissingAccessTo, doc_without_default) ∧
  hasRule read_A doc_without_default = (Throw MissingAccessTo, doc_without_default) ∧
  deleteRule read_A doc_without_default = (Throw MissingAccessTo, doc_without_default) ∧
  deleteAgents {[webA]} doc_without_default =
    (Throw MissingAccessTo, doc_without_default).
Proof.
  apply (missing_accessTo_throws doc_without_default read_A None {[webA]}).
  - reflexivity.
  - intros (s & Hs & _). discriminate Hs.
Defined.

Lemma aggregates_sound_witness :
  (∀ Ag Ps p, (getPermissionsFor Ag (scenario_doc resource)).1 = Ok Ps → p ∈ Ps →
              (hasRule (OfParts {[p]} Ag []) (scenario_doc resource)).1 = Ok true) ∧
  (∀ P As a, (getAgentsWith P (scenario_doc resource)).1 = Ok As → a ∈ As →
             (hasRule (OfParts P {[a]} []) (scenario_doc resource)).1 = Ok true).
Proof.
  exact (aggregates_sound (scenario_doc resource) scenario_has_default).
Defined.

Lemma getPermissionsFor_single_agent_witness :
  (∃ Ps, (getPermissionsFor {[webA]} (scenario_doc resource)).1 = Ok Ps ∧
         Permissions.READ ∈ Ps) ↔
  (hasRule (OfParts {[Permissions.READ]} {[webA]} []) (scenario_doc resource)).1 =
  Ok true.
Proof.
  exact (getPermissionsFor_single_agent (scenario_doc resource) Permissions.READ webA
           scenario_has_default).
Defined.

Lemma deleteBySubject_subject_group_witness :
  deleteBySubject "s1" None (scenario_doc resource) =
    (Ok (), AclDoc.mk (Some resource) [] []) ∧
  deleteBySubject "s2" None (scenario_doc resource) = (Ok (), scenario_doc resource).
Proof.
  destruct (deleteBySubject_subject_group (scenario_doc resource) "s1" scenario_intact)
    as (Hrun & _).
  destruct (deleteBySubject_subject_group (scenario_doc resource) "s2" scenario_intact)
    as (_ & _ & _ & Habsent).
  split; [exact Hrun|]. apply Habsent. unfold keys. by_compute.
Defined.

Lemma shadowed_hasOwnProperty_throws_witness :
  deleteBySubject "hasOwnProperty" None doc_shadowing =
    (Throw NotAFunction, doc_shadowing) ∧
  addRule read_A None doc_shadowing = (Throw NotAFunction, doc_shadowing).
Proof.
  assert ("hasOwnProperty" ∈ keys (rules doc_shadowing)) as Hin by by_compute.
  destruct (shadowed_hasOwnProperty_throws doc_shadowing Hin) as (Hdel & _ & Hargs).
  split; [apply Hdel|].
  apply (Hargs read_A). right. exists resource. split; [reflexivity|discriminate].
Defined.

Lemma addRule_proto_stores_nothing_witness :
  addRule read_A (Some "__proto__") (scenario_doc resource) =
  (Ok (), scenario_doc resource).
Proof.
  apply (addRule_proto_stores_nothing (scenario_doc resource) read_A).
  - unfold keys. by_compute.
  - right. exact scenario_has_default.
Defined.

End further_witnesses.
